(** * A toroidal Game-of-Life board evaluated at compile time (perf.cpp)

    Shallow embedding of [floor_modulo], [GameBoard], [iterate_board] and
    [run_board], followed by the properties of the grid engine.

    Data model: the LP64 data model is assumed, [std::size_t] being the
    unsigned 64-bit type and [std::int64_t] the signed one.  Unsigned
    arithmetic wraps modulo [2^64]; signed overflow, division by zero and an
    array access past the end are undefined (a hard error in a constant
    expression) and make the computation return [None].

    Dimensions: [GameBoard<Width, Height>] keeps its cells in one array of
    extent [Width * Height], a [std::size_t] product.  The statements about
    whole boards are for positive dimensions whose product is the size of an
    object, at most [PTRDIFF_MAX]; up to that bound the extent is the
    product itself and the [std::int64_t] loop counters of [make_indexes]
    reach the dimensions without overflow. *)

From Stdlib Require Import ZArith Lia Bool.
From stdpp Require Import base option list list_numbers.

Local Open Scope Z_scope.

(** ** Machine integers *)

Definition SIZE_MAX : Z := 2 ^ 64 - 1.
Definition PTRDIFF_MAX : Z := 2 ^ 63 - 1.
Definition INT64_MIN : Z := - 2 ^ 63.
Definition INT64_MAX : Z := 2 ^ 63 - 1.

(** Conversion of an integer value to [std::size_t]. *)
Definition to_size_t (v : Z) : Z := v mod 2 ^ 64.

(** [a + b] and [a * b] on [std::size_t] operands. *)
Definition size_add (a b : Z) : Z := to_size_t (a + b).
Definition size_mul (a b : Z) : Z := to_size_t (a * b).

(** [a % b] on [std::size_t] operands; undefined for a zero divisor. *)
Definition size_rem (a b : Z) : option Z :=
  if b =? 0 then None else Some (a mod b).

(** Result of an [std::int64_t] operation whose exact value is [v]. *)
Definition int64_result (v : Z) : option Z :=
  if (INT64_MIN <=? v) && (v <=? INT64_MAX) then Some v else None.

(** ** floor_modulo

    [floor_modulo(auto dividend, auto divisor)] as [GameBoard::index]
    instantiates it: the dividend is an [std::int64_t], the divisor an
    [std::size_t].  The usual arithmetic conversions turn the dividend into
    an [std::size_t] before the first [%]. *)
Definition floor_modulo (dividend divisor : Z) : option Z :=
  r ← size_rem (to_size_t dividend) divisor;
  size_rem (size_add r divisor) divisor.

(** ** GameBoard<Width, Height> *)

Record Point : Type := { x : Z; y : Z }.

(** [Point::operator+] *)
Definition Point_add (p rhs : Point) : option Point :=
  sx ← int64_result (x p + x rhs);
  sy ← int64_result (y p + y rhs);
  Some {| x := sx; y := sy |}.

(** The 8 relative positions of the neighbors of a point. *)
Definition neighbors : list Point :=
  [ {| x := -1; y := 0 |}; {| x := 1; y := 0 |};
    {| x := -1; y := -1 |}; {| x := 0; y := -1 |}; {| x := 1; y := -1 |};
    {| x := -1; y := 1 |}; {| x := 0; y := 1 |}; {| x := 1; y := 1 |} ].

Record GameBoard : Type := { data : list bool }.

(** [array[i]] and [array[i] = v] on a [std::array]. *)
Definition array_get {A} (array : list A) (i : Z) : option A :=
  array !! Z.to_nat i.

Definition array_set {A} (array : list A) (i : Z) (v : A) : option (list A) :=
  if (Z.to_nat i <? length array)%nat then Some (<[Z.to_nat i := v]> array) else None.

Section GameBoard.
Variables Width Height : Z.

Definition width : Z := Width.
Definition height : Z := Height.

(** The extent [Width * Height] of the two [std::array] types. *)
Definition extent : Z := size_mul Width Height.

Definition index (p : Point) : option Z :=
  wy ← floor_modulo (y p) height;
  wx ← floor_modulo (x p) width;
  Some (size_add (size_mul wy width) wx).

(** [operator[]] *)
Definition get (b : GameBoard) (p : Point) : option bool :=
  i ← index p;
  array_get (data b) i.

Definition set (b : GameBoard) (p : Point) : option GameBoard :=
  i ← index p;
  d ← array_set (data b) i true;
  Some {| data := d |}.

Fixpoint count_from (b : GameBoard) (p : Point) (rest : list Point)
    (count : Z) : option Z :=
  match rest with
  | [] => Some count
  | neighbor :: rest' =>
      q ← Point_add p neighbor;
      alive ← get b q;
      count_from b p rest' (if alive : bool then size_add count 1 else count)
  end.

Definition count_neighbors (b : GameBoard) (p : Point) : option Z :=
  count_from b p neighbors 0.

(** The inner loop of [make_indexes] on one row, the counter taking the
    values of [xs] in turn; each round ends with [++output_index] and the
    increment of the [std::int64_t] counter. *)
Fixpoint fill_row (xs : list Z) (row : Z) (result : list Point)
    (output_index : Z) : option (list Point * Z) :=
  match xs with
  | [] => Some (result, output_index)
  | col :: xs' =>
      result' ← array_set result output_index {| x := col; y := row |};
      _ ← int64_result (col + 1);
      fill_row xs' row result' (size_add output_index 1)
  end.

(** The outer loop, over the rows [ys]. *)
Fixpoint fill_rows (ys : list Z) (result : list Point)
    (output_index : Z) : option (list Point * Z) :=
  match ys with
  | [] => Some (result, output_index)
  | row :: ys' =>
      '(result', output_index') ←
        fill_row (seqZ 0 width) row result output_index;
      _ ← int64_result (row + 1);
      fill_rows ys' result' output_index'
  end.

(** [make_unique] value-initialises the array.  The loops are counted:
    [y] runs over [0 .. height-1] and [x] over [0 .. width-1], the values
    for which the conditions [y < height] and [x < width] hold. *)
Definition make_indexes : option (list Point) :=
  let result := replicate (Z.to_nat extent) {| x := 0; y := 0 |} in
  '(result', _) ← fill_rows (seqZ 0 height) result 0;
  Some result'.

Definition add_glider (b : GameBoard) (p : Point) : option GameBoard :=
  b ← set b p;
  q ← Point_add p {| x := 1; y := 1 |}; b ← set b q;
  q ← Point_add p {| x := 2; y := 1 |}; b ← set b q;
  q ← Point_add p {| x := 0; y := 2 |}; b ← set b q;
  q ← Point_add p {| x := 1; y := 2 |}; set b q.

(** [std::make_unique<board_type>()]: every cell is [false]. *)
Definition new_board : GameBoard :=
  {| data := replicate (Z.to_nat extent) false |}.

End GameBoard.

(** ** iterate_board *)

(** The branches of the [rules] lambda of [iterate_board]. *)
Definition rule_table (is_alive : bool) (neighbor_count : Z) : bool :=
  if is_alive then
    if neighbor_count <? 2 then false
    else if neighbor_count <=? 3 then true
    else false
  else
    if neighbor_count =? 3 then true
    else false.

(** [std::transform(first, last, d_first, op)]: while [first != last], the
    image under [op] of the element at [first] is stored at [d_first] and
    both advance; [d_first] is a position in [out]. *)
Fixpoint transform {A B} (first : list A) (out : list B) (d_first : Z)
    (op : A → option B) : option (list B) :=
  match first with
  | [] => Some out
  | a :: first' =>
      v ← op a;
      out' ← array_set out d_first v;
      transform first' out' (d_first + 1) op
  end.

Section Simulation.
Variables Width Height : Z.

Definition rules (input : GameBoard) (index : Point) : option bool :=
  neighbor_count ← count_neighbors Width Height input index;
  is_alive ← get Width Height input index;
  Some (rule_table is_alive neighbor_count).

Definition iterate_board (input output : GameBoard) (indices : list Point)
    : option GameBoard :=
  d ← transform indices (data output) 0 (rules input);
  Some {| data := d |}.

(** ** run_board *)

(** The loop of [run_board]: one step, then the two buffers swap. *)
Fixpoint run_loop (Iterations : nat) (board1 board2 : GameBoard)
    (indices : list Point) : option (GameBoard * GameBoard) :=
  match Iterations with
  | O => Some (board1, board2)
  | S n =>
      board2' ← iterate_board board1 board2 indices;
      run_loop n board2' board1 indices
  end.

(** [run_board] from the seeded [board1] on: the second buffer, the index
    cache, the loop; the result is the board [board1] points to at the
    end. *)
Definition run_from (board1 : GameBoard) (Iterations : nat)
    : option GameBoard :=
  let board2 := new_board Width Height in
  indices ← make_indexes Width Height;
  '(board1', _) ← run_loop Iterations board1 board2 indices;
  Some board1'.

Definition run_board (Iterations : nat) : option bool :=
  board1 ← add_glider Width Height (new_board Width Height) {| x := 1; y := 3 |};
  board1 ← add_glider Width Height board1 {| x := 10; y := 1 |};
  final ← run_from board1 Iterations;
  get Width Height final {| x := 0; y := 0 |}.

End Simulation.

(** ** Vocabulary of the statements *)

(** A board of [GameBoard<Width, Height>] holds [extent] cells. *)
Definition wf (Width Height : Z) (b : GameBoard) : Prop :=
  length (data b) = Z.to_nat (extent Width Height).

(** One row of coordinates, and the coordinates of a [Width] by [Height]
    board in row-major order. *)
Definition row_of (Width row : Z) : list Point :=
  (λ col, {| x := col; y := row |}) <$> seqZ 0 Width.

Definition row_major (Width Height : Z) : list Point :=
  seqZ 0 Height ≫= row_of Width.

(** The live cells of a board, in row-major order. *)
Definition live_cells (Width Height : Z) (b : GameBoard) : list Point :=
  filter (λ p, get Width Height b p = Some true) (row_major Width Height).

(** The floor-modulo of the mathematical integers. *)
Definition floor_mod (k m : Z) : Z := k mod m.

(** A loop counter that [++] does not overflow. *)
Definition incrementable (k : Z) : Prop := INT64_MIN ≤ k + 1 ≤ INT64_MAX.

(** A neighbor offset, and a point with room for one in every direction. *)
Definition unit_offset (d : Point) : Prop :=
  -1 ≤ x d ≤ 1 ∧ -1 ≤ y d ≤ 1.

Definition interior (p : Point) : Prop :=
  INT64_MIN < x p < INT64_MAX ∧ INT64_MIN < y p < INT64_MAX.

(** An anchor whose glider offsets stay within [std::int64_t]. *)
Definition anchor (p : Point) : Prop :=
  INT64_MIN ≤ x p ≤ INT64_MAX - 2 ∧ INT64_MIN ≤ y p ≤ INT64_MAX - 2.

(** A 2 by 2 board with three live cells, for the examples. *)
Definition sample_2x2 : GameBoard := {| data := [true; true; false; true] |}.

(** The five cells of a glider, as offsets from its anchor. *)
Definition glider_offsets : list Point :=
  [ {| x := 0; y := 0 |}; {| x := 1; y := 1 |}; {| x := 2; y := 1 |};
    {| x := 0; y := 2 |}; {| x := 1; y := 2 |} ].

(** The cells around [p], in the order of [neighbors]. *)
Definition neighbor_cells (Width Height : Z) (b : GameBoard) (p : Point)
    : option (list bool) :=
  mapM (λ d, q ← Point_add p d; get Width Height b q) neighbors.

(** The number of live cells in a list of cells. *)
Definition count_alive (cells : list bool) : Z :=
  Z.of_nat (length (filter (λ cell : bool, cell = true) cells)).

(** The storage slots of the five cells of a glider anchored at [p]. *)
Definition glider_slots (Width Height : Z) (p : Point) : option (list Z) :=
  mapM (λ d, q ← Point_add p d; index Width Height q) glider_offsets.

(** An array with the given slots set to [true]. *)
Definition mark (slots : list nat) (d : list bool) : list bool :=
  foldl (λ d i, <[i := true]> d) d slots.

(** ** min_int (perf.cpp) *)

Inductive int_type : Type := Int8 | Int16 | Int32 | Int64.

(** [std::numeric_limits<T>::max()] *)
Definition int_max (t : int_type) : Z :=
  match t with
  | Int8 => 2 ^ 7 - 1
  | Int16 => 2 ^ 15 - 1
  | Int32 => 2 ^ 31 - 1
  | Int64 => 2 ^ 63 - 1
  end.

(** [min_int<value>()], as the type of the value it returns. *)
Definition min_int (value : Z) : int_type :=
  if value <=? int_max Int8 then Int8
  else if value <=? int_max Int16 then Int16
  else if value <=? int_max Int32 then Int32
  else Int64.

(** The largest [unsigned]. *)
Definition UINT_MAX : Z := 2 ^ 32 - 1.

(** ** checksum (embed.cpp)

    Characters are given by their values as [char]; [unsigned] is the 32-bit
    type.  The list is the array from the position of the pointer to its
    end, and reading past the end is undefined. *)
Module Embed.

Definition to_unsigned (v : Z) : Z := v mod 2 ^ 32.

Fixpoint checksum_from (p : list Z) (result : Z) : option Z :=
  match p with
  | [] => None
  | c :: p' =>
      if c =? 0 then Some result
      else checksum_from p' (to_unsigned (result + c))
  end.

Definition checksum (s : list Z) : option Z := checksum_from s 0.

(** [str]: the characters of the embedded resource, not empty, followed by
    the suffix [0]. *)
Definition str (resource : list Z) : list Z := resource ++ [0].

Definition C (resource : list Z) : option Z := checksum (str resource).

(** The sum of the characters of a string. *)
Definition char_sum (s : list Z) : Z := foldr Z.add 0 s.

End Embed.

(** ** test (builtin-memcpy.cpp)

    [B] is not initialised: its contents before the loop are the parameter
    [B0].  The loop is counted, [I] running from [0] to [TUNING - 1], for a
    [TUNING] that an [unsigned] reaches. *)
Module BuiltinMemcpy.

(** [__builtin_memcpy(dst, src, n)] on arrays of [char]. *)
Definition builtin_memcpy (dst src : list Z) (n : Z) : option (list Z) :=
  if (n <=? Z.of_nat (length src)) && (n <=? Z.of_nat (length dst))
  then Some (take (Z.to_nat n) src ++ drop (Z.to_nat n) dst)
  else None.

Fixpoint copy_loop (rounds : nat) (TUNING : Z) (A B : list Z)
    : option (list Z) :=
  match rounds with
  | O => Some B
  | S rounds' =>
      B' ← builtin_memcpy B A TUNING;
      copy_loop rounds' TUNING A B'
  end.

(** [test()], with the final contents of [B] beside the value returned. *)
Definition test (TUNING : Z) (B0 : list Z) : option (list Z * Z) :=
  let A := replicate (Z.to_nat TUNING) 0 in
  B ← copy_loop (Z.to_nat TUNING) TUNING A B0;
  Some (B, 1).

End BuiltinMemcpy.

(** ** Machine arithmetic *)

Lemma two_64 : 2 ^ 64 = 18446744073709551616.
Proof. reflexivity. Qed.

Lemma to_size_t_id v : 0 ≤ v ≤ SIZE_MAX → to_size_t v = v.
Proof. unfold to_size_t, SIZE_MAX. intros ?. apply Z.mod_small. lia. Qed.

Lemma to_size_t_le v : 0 ≤ v → 0 ≤ to_size_t v ≤ v.
Proof.
  intros Hv. unfold to_size_t. split.
  - by apply Z.mod_pos_bound.
  - apply Z.mod_le; [done | reflexivity].
Qed.

Lemma size_rem_pos a m : 0 < m → size_rem a m = Some (a mod m).
Proof.
  intros Hm. unfold size_rem.
  destruct (Z.eqb_spec m 0); [lia | reflexivity].
Qed.

Lemma int64_result_in v :
  INT64_MIN ≤ v ≤ INT64_MAX → int64_result v = Some v.
Proof.
  intros [Hlo Hhi]. unfold int64_result.
  apply Z.leb_le in Hlo, Hhi. by rewrite Hlo, Hhi.
Qed.

(** ** floor_modulo *)

Lemma floor_modulo_eq k m :
  0 < m →
  floor_modulo k m = Some (to_size_t (to_size_t k mod m + m) mod m).
Proof.
  intros Hm. unfold floor_modulo.
  rewrite (size_rem_pos _ m Hm). simpl.
  by rewrite (size_rem_pos _ m Hm).
Qed.

Lemma floor_modulo_range k m :
  0 < m → ∃ r, floor_modulo k m = Some r ∧ 0 ≤ r < m.
Proof.
  intros Hm. rewrite floor_modulo_eq by done.
  eexists; split; [done |]. by apply Z.mod_pos_bound.
Qed.

Lemma floor_modulo_small k m :
  0 ≤ k < m → m ≤ 2 ^ 63 → floor_modulo k m = Some k.
Proof.
  intros Hk Hm. rewrite floor_modulo_eq by lia. f_equal.
  assert (H63 : 2 ^ 63 = 9223372036854775808) by reflexivity.
  rewrite (to_size_t_id k) by (unfold SIZE_MAX; rewrite two_64; lia).
  rewrite (Z.mod_small k m) by lia.
  rewrite to_size_t_id by (unfold SIZE_MAX; rewrite two_64; lia).
  replace (k + m) with (k + 1 * m) by lia.
  rewrite Z.mod_add by lia. apply Z.mod_small; lia.
Qed.

(** What the code computes: the remainder of the dividend's image in
    [std::size_t]. *)
Lemma floor_modulo_unsigned k m :
  0 < m ≤ 2 ^ 63 → floor_modulo k m = Some (to_size_t k mod m).
Proof.
  intros Hm. rewrite floor_modulo_eq by lia. f_equal.
  assert (H63 : 2 ^ 63 = 9223372036854775808) by reflexivity.
  pose proof (Z.mod_pos_bound (to_size_t k) m ltac:(lia)).
  rewrite to_size_t_id by (unfold SIZE_MAX; rewrite two_64; lia).
  replace (to_size_t k mod m + m) with (to_size_t k mod m + 1 * m) by lia.
  rewrite Z.mod_add by lia. apply Z.mod_mod; lia.
Qed.

(** On a non-negative dividend the code computes the floor-modulo. *)
Lemma floor_modulo_nonneg k m :
  0 ≤ k ≤ INT64_MAX → 0 < m ≤ 2 ^ 63 → floor_modulo k m = Some (floor_mod k m).
Proof.
  intros Hk Hm. rewrite floor_modulo_eq by lia. f_equal. unfold floor_mod.
  assert (H63 : 2 ^ 63 = 9223372036854775808) by reflexivity.
  unfold INT64_MAX in Hk.
  rewrite (to_size_t_id k) by (unfold SIZE_MAX; rewrite two_64; lia).
  pose proof (Z.mod_pos_bound k m ltac:(lia)).
  rewrite to_size_t_id by (unfold SIZE_MAX; rewrite two_64; lia).
  replace (k mod m + m) with (k mod m + 1 * m) by lia.
  rewrite Z.mod_add by lia. apply Z.mod_mod; lia.
Qed.

(** ** index, get and set *)

Section Index.
Context (Width Height : Z).
Hypothesis width_pos : 0 < Width.
Hypothesis height_pos : 0 < Height.
Hypothesis extent_fits : Width * Height ≤ SIZE_MAX.

Lemma extent_eq : extent Width Height = Width * Height.
Proof using width_pos height_pos extent_fits.
  unfold extent, size_mul. apply to_size_t_id. nia.
Qed.

Lemma linear_index_eq wx wy :
  0 ≤ wx < Width → 0 ≤ wy < Height →
  size_add (size_mul wy Width) wx = wy * Width + wx
  ∧ 0 ≤ wy * Width + wx < Width * Height.
Proof using width_pos height_pos extent_fits.
  intros Hx Hy.
  assert (0 ≤ wy * Width + wx < Width * Height) by nia.
  split; [| done]. unfold size_add, size_mul.
  rewrite (to_size_t_id (wy * Width)) by nia.
  apply to_size_t_id. lia.
Qed.

Lemma index_wraps p :
  ∃ wx wy,
    floor_modulo (x p) Width = Some wx ∧ floor_modulo (y p) Height = Some wy
    ∧ 0 ≤ wx < Width ∧ 0 ≤ wy < Height
    ∧ index Width Height p = Some (wy * Width + wx).
Proof using width_pos height_pos extent_fits.
  destruct (floor_modulo_range (x p) Width width_pos) as (wx & Ex & Hx).
  destruct (floor_modulo_range (y p) Height height_pos) as (wy & Ey & Hy).
  exists wx, wy. repeat split; try done; try lia.
  unfold index, width, height. rewrite Ey, Ex. simpl.
  f_equal. by apply linear_index_eq.
Qed.

Lemma index_in_extent p :
  ∃ i, index Width Height p = Some i ∧ 0 ≤ i < Width * Height.
Proof using width_pos height_pos extent_fits.
  destruct (index_wraps p) as (wx & wy & _ & _ & Hx & Hy & Ei).
  eexists; split; [exact Ei |]. by apply linear_index_eq.
Qed.

Lemma get_defined b p :
  wf Width Height b → ∃ i, index Width Height p = Some i
                           ∧ 0 ≤ i < Width * Height
                           ∧ is_Some (get Width Height b p).
Proof using width_pos height_pos extent_fits.
  intros Hwf. destruct (index_in_extent p) as (i & Ei & Hi).
  exists i. repeat split; try done; try lia.
  unfold get. rewrite Ei. simpl. unfold array_get.
  apply lookup_lt_is_Some. rewrite Hwf, extent_eq. lia.
Qed.

Lemma set_defined b p :
  wf Width Height b →
  ∃ i, index Width Height p = Some i
       ∧ (Z.to_nat i < length (data b))%nat
       ∧ set Width Height b p = Some {| data := <[Z.to_nat i := true]> (data b) |}.
Proof using width_pos height_pos extent_fits.
  intros Hwf. destruct (index_in_extent p) as (i & Ei & Hi).
  assert (Hlt : (Z.to_nat i < length (data b))%nat)
    by (rewrite Hwf, extent_eq; lia).
  exists i. repeat split; try done.
  unfold set. rewrite Ei. simpl. unfold array_set.
  apply Nat.ltb_lt in Hlt. by rewrite Hlt.
Qed.

Lemma wf_new_board : wf Width Height (new_board Width Height).
Proof. unfold wf, new_board. simpl. apply length_replicate. Qed.

Lemma get_new_board p : get Width Height (new_board Width Height) p = Some false.
Proof using width_pos height_pos extent_fits.
  destruct (index_in_extent p) as (i & Ei & Hi).
  unfold get. rewrite Ei. simpl. unfold array_get, new_board. simpl.
  apply lookup_replicate_2. rewrite extent_eq. lia.
Qed.
End Index.

(** A zero dimension is a zero divisor: the index mapping is undefined. *)
Lemma index_zero_dimension Width Height p :
  Width = 0 ∨ Height = 0 → index Width Height p = None.
Proof.
  unfold index, width, height, floor_modulo, size_rem.
  intros [-> | ->]; simpl; [| done].
  by destruct (Height =? 0).
Qed.

(** The linear index is below [Width * Height], whether or not the product
    is representable. *)
Lemma index_below Width Height p :
  0 < Width → 0 < Height →
  ∃ i, index Width Height p = Some i ∧ 0 ≤ i < Width * Height.
Proof.
  intros HW HH.
  destruct (floor_modulo_range (x p) Width HW) as (wx & Ex & Hx).
  destruct (floor_modulo_range (y p) Height HH) as (wy & Ey & Hy).
  unfold index, width, height. rewrite Ey, Ex. simpl.
  eexists; split; [done |].
  pose proof (to_size_t_le (wy * Width) ltac:(nia)) as Hmul.
  fold (size_mul wy Width) in Hmul.
  pose proof (to_size_t_le (size_mul wy Width + wx) ltac:(lia)) as Hadd.
  fold (size_add (size_mul wy Width) wx) in Hadd. nia.
Qed.

(** An index inside the board is its own wrap. *)
Lemma index_inside Width Height p :
  0 ≤ x p < Width → 0 ≤ y p < Height → Width * Height ≤ PTRDIFF_MAX →
  index Width Height p = Some (y p * Width + x p).
Proof.
  intros Hx Hy Hfit. unfold PTRDIFF_MAX in Hfit.
  assert (H63 : 2 ^ 63 = 9223372036854775808) by reflexivity.
  unfold index, width, height.
  rewrite (floor_modulo_small (y p) Height) by nia.
  rewrite (floor_modulo_small (x p) Width) by nia.
  simpl. f_equal.
  apply (linear_index_eq Width Height); try lia.
  unfold SIZE_MAX. rewrite two_64. lia.
Qed.

(** Monotonicity of [set], whatever the dimensions. *)
Lemma set_keeps_alive Width Height b p b' c :
  set Width Height b p = Some b' →
  get Width Height b c = Some true → get Width Height b' c = Some true.
Proof.
  unfold set, get. intros Hset Hget.
  destruct (index Width Height p) as [i |]; [| done].
  destruct (index Width Height c) as [j |]; [| done].
  simpl in *. unfold array_set in Hset. unfold array_get in *.
  destruct (Nat.ltb_spec (Z.to_nat i) (length (data b))) as [Hlt | ?]; [| done].
  simpl in Hset. injection Hset as <-. simpl.
  destruct (decide (Z.to_nat i = Z.to_nat j)) as [-> | Hne].
  - apply list_lookup_insert_eq. by eapply lookup_lt_Some.
  - by rewrite list_lookup_insert_ne.
Qed.

(** ** Sequential stores into an array *)

Lemma array_set_lt {A} (array : list A) (pos : nat) v :
  (pos < length array)%nat →
  array_set array (Z.of_nat pos) v = Some (<[pos := v]> array).
Proof.
  intros Hlt. unfold array_set. rewrite Nat2Z.id.
  apply Nat.ltb_lt in Hlt. by rewrite Hlt.
Qed.

(** One more store after the slots before [pos] are settled. *)
Lemma store_next {A} (out : list A) (pos : nat) v vs :
  (pos < length out)%nat →
  take (S pos) (<[pos := v]> out) ++ vs
    ++ drop (S pos + length vs) (<[pos := v]> out)
  = take pos out ++ (v :: vs) ++ drop (pos + length (v :: vs)) out.
Proof.
  intros Hlt.
  rewrite (take_S_r _ _ v) by (by apply list_lookup_insert_eq).
  rewrite take_insert_ge by lia.
  rewrite drop_insert_lt by lia.
  rewrite <- app_assoc. simpl.
  by replace (pos + S (length vs))%nat with (S (pos + length vs)) by lia.
Qed.

Lemma splice_take {A} (l mid : list A) (pos n : nat) :
  length mid = n → (pos + n ≤ length l)%nat →
  take (pos + n) (take pos l ++ mid ++ drop (pos + n) l) = take pos l ++ mid.
Proof.
  intros <- Hle. rewrite app_assoc.
  apply take_app_length'. rewrite length_app, length_take. lia.
Qed.

Lemma splice_drop {A} (l mid : list A) (pos n k : nat) :
  length mid = n → (pos + n ≤ length l)%nat →
  drop (pos + n + k) (take pos l ++ mid ++ drop (pos + n) l)
  = drop (pos + n + k) l.
Proof.
  intros <- Hle. rewrite app_assoc.
  rewrite drop_app_add' by (rewrite length_app, length_take; lia).
  by rewrite drop_drop.
Qed.

Lemma transform_stores {A B} (op : A → option B) first vs :
  Forall2 (λ a v, op a = Some v) first vs →
  ∀ out (pos : nat),
    (pos + length first ≤ length out)%nat →
    transform first out (Z.of_nat pos) op
    = Some (take pos out ++ vs ++ drop (pos + length vs) out).
Proof.
  induction 1 as [| a v first vs Ha _ IH]; intros out pos Hlen; simpl in *.
  - by rewrite Nat.add_0_r, take_drop.
  - rewrite Ha. simpl. rewrite array_set_lt by lia. simpl.
    replace (Z.of_nat pos + 1) with (Z.of_nat (S pos)) by lia.
    rewrite IH by (rewrite length_insert; lia).
    f_equal. apply store_next. lia.
Qed.

(** A whole-array [transform] leaves nothing of the former contents. *)
Lemma transform_whole {A B} (op : A → option B) first vs out :
  Forall2 (λ a v, op a = Some v) first vs →
  length first = length out →
  transform first out 0 op = Some vs.
Proof.
  intros HF Hlen.
  pose proof (Forall2_length _ _ _ HF) as Hvs.
  change 0 with (Z.of_nat 0).
  rewrite (transform_stores op first vs HF out 0%nat) by lia.
  simpl. rewrite drop_ge by lia. by rewrite app_nil_r.
Qed.

(** ** make_indexes *)

Lemma length_row_of Width row : length (row_of Width row) = Z.to_nat Width.
Proof. unfold row_of. by rewrite length_fmap, length_seqZ. Qed.

Lemma row_major_rows Width Height :
  row_major Width Height = seqZ 0 Height ≫= row_of Width.
Proof. reflexivity. Qed.

Lemma length_rows Width (ys : list Z) :
  length (ys ≫= row_of Width) = (length ys * Z.to_nat Width)%nat.
Proof.
  induction ys as [| row ys IH]; [done |].
  rewrite bind_cons, length_app, length_row_of, IH. simpl. lia.
Qed.

Lemma length_row_major Width Height :
  0 ≤ Width → 0 ≤ Height →
  length (row_major Width Height) = Z.to_nat (Width * Height).
Proof.
  intros. rewrite row_major_rows, length_rows, length_seqZ. nia.
Qed.

Lemma counters_incrementable n :
  n ≤ INT64_MAX → Forall incrementable (seqZ 0 n).
Proof.
  intros Hn. apply Forall_seqZ. intros k Hk.
  unfold incrementable, INT64_MIN, INT64_MAX in *.
  assert (H63 : 2 ^ 63 = 9223372036854775808) by reflexivity. lia.
Qed.

Lemma fill_row_stores row xs :
  Forall incrementable xs →
  ∀ result (pos : nat),
    (pos + length xs ≤ length result)%nat →
    Z.of_nat (length result) ≤ SIZE_MAX →
    fill_row xs row result (Z.of_nat pos)
    = Some (take pos result
              ++ ((λ col, {| x := col; y := row |}) <$> xs)
              ++ drop (pos + length xs) result,
            Z.of_nat (pos + length xs)).
Proof.
  induction 1 as [| col xs Hcol _ IH]; intros result pos Hlen Hmax; simpl in *.
  - by rewrite Nat.add_0_r, take_drop.
  - rewrite array_set_lt by lia. simpl.
    rewrite (int64_result_in _ Hcol). simpl.
    replace (size_add (Z.of_nat pos) 1) with (Z.of_nat (S pos))
      by (unfold size_add; rewrite to_size_t_id; lia).
    rewrite IH by (rewrite length_insert; lia).
    f_equal. f_equal; [| lia].
    rewrite <- (length_fmap (λ col, {| x := col; y := row |}) xs).
    rewrite store_next by lia. simpl.
    by rewrite !length_fmap.
Qed.

Lemma fill_rows_stores Width ys :
  0 ≤ Width ≤ INT64_MAX →
  Forall incrementable ys →
  ∀ result (pos : nat),
    (pos + length ys * Z.to_nat Width ≤ length result)%nat →
    Z.of_nat (length result) ≤ SIZE_MAX →
    fill_rows Width ys result (Z.of_nat pos)
    = Some (take pos result
              ++ (ys ≫= row_of Width)
              ++ drop (pos + length ys * Z.to_nat Width) result,
            Z.of_nat (pos + length ys * Z.to_nat Width)).
Proof.
  intros HW.
  induction 1 as [| row ys Hrow' _ IH]; intros result pos Hlen Hmax; simpl in *.
  - by rewrite Nat.add_0_r, take_drop.
  - unfold width.
    rewrite fill_row_stores
      by (rewrite ?length_seqZ; (lia || (apply counters_incrementable; lia))).
    simpl. rewrite (int64_result_in _ Hrow'). simpl.
    fold (row_of Width row). rewrite length_seqZ.
    pose proof (length_row_of Width row) as Hrow.
    rewrite IH.
    + f_equal. f_equal; [| lia].
      rewrite splice_take, splice_drop by (done || lia).
      rewrite <- !app_assoc. do 2 f_equal. by rewrite Nat.add_assoc.
    + rewrite !length_app, length_take, length_drop. lia.
    + rewrite !length_app, length_take, length_drop. lia.
Qed.

(** The index cache is the row-major enumeration of the board. *)
Lemma make_indexes_row_major Width Height :
  0 ≤ Width ≤ INT64_MAX → 0 ≤ Height ≤ INT64_MAX →
  Width * Height ≤ SIZE_MAX →
  make_indexes Width Height = Some (row_major Width Height).
Proof.
  intros HW HH Hfit. unfold make_indexes, height.
  assert (Hext : extent Width Height = Width * Height)
    by (unfold extent, size_mul; apply to_size_t_id; nia).
  rewrite Hext.
  set (result := replicate (Z.to_nat (Width * Height)) {| x := 0; y := 0 |}).
  assert (Hlen : length result = Z.to_nat (Width * Height))
    by apply length_replicate.
  pose proof (fill_rows_stores Width (seqZ 0 Height) HW
                (counters_incrementable Height ltac:(lia)) result 0%nat)
    as Hfill.
  rewrite length_seqZ in Hfill. change (Z.of_nat 0) with 0 in Hfill.
  rewrite Hfill by (rewrite Hlen; nia).
  simpl. rewrite drop_ge, app_nil_r; [done |]. rewrite Hlen. nia.
Qed.

Lemma lookup_rows Width (ys : list Z) :
  ∀ (j c : nat) row,
    ys !! j = Some row → Z.of_nat c < Width →
    (ys ≫= row_of Width) !! (j * Z.to_nat Width + c)%nat
    = Some {| x := Z.of_nat c; y := row |}.
Proof.
  induction ys as [| r ys IH]; intros j c row Hj Hc; [done |].
  rewrite bind_cons. destruct j as [| j]; simpl in *.
  - injection Hj as ->.
    rewrite lookup_app_l by (rewrite length_row_of; lia).
    unfold row_of. rewrite list_lookup_fmap, lookup_seqZ_lt by lia.
    by rewrite Z.add_0_l.
  - rewrite lookup_app_r by (rewrite length_row_of; lia).
    rewrite length_row_of.
    replace (Z.to_nat Width + j * Z.to_nat Width + c - Z.to_nat Width)%nat
      with (j * Z.to_nat Width + c)%nat by lia.
    by apply IH.
Qed.

Lemma lookup_row_major Width Height col row :
  0 ≤ col < Width → 0 ≤ row < Height →
  row_major Width Height !! Z.to_nat (row * Width + col)
  = Some {| x := col; y := row |}.
Proof.
  intros Hc Hr. rewrite row_major_rows.
  replace (Z.to_nat (row * Width + col))
    with (Z.to_nat row * Z.to_nat Width + Z.to_nat col)%nat by nia.
  rewrite (lookup_rows Width _ _ _ row).
  - do 2 f_equal. lia.
  - rewrite lookup_seqZ_lt by lia. f_equal. lia.
  - lia.
Qed.

Lemma row_major_lookup_inv Width Height (i : nat) p :
  0 < Width → 0 ≤ Height →
  row_major Width Height !! i = Some p →
  0 ≤ x p < Width ∧ 0 ≤ y p < Height ∧ Z.of_nat i = y p * Width + x p.
Proof.
  intros HW HH Hi.
  pose proof (lookup_lt_Some _ _ _ Hi) as Hlt.
  rewrite length_row_major in Hlt by lia.
  set (k := Z.of_nat i).
  assert (Hk : 0 ≤ k < Width * Height) by (subst k; nia).
  pose proof (Z.mod_pos_bound k Width HW) as Hmod.
  pose proof (Z.div_mod k Width ltac:(lia)) as Hdm.
  assert (Hdiv : 0 ≤ k / Width < Height).
  { split; [apply Z.div_pos; lia |].
    apply Z.div_lt_upper_bound; lia. }
  rewrite <- (Nat2Z.id i) in Hi. fold k in Hi.
  replace k with (k / Width * Width + k mod Width) in Hi at 1 by lia.
  rewrite lookup_row_major in Hi by lia.
  injection Hi as <-. simpl. lia.
Qed.

(** ** count_neighbors and rules *)

Lemma neighbors_unit : Forall unit_offset neighbors.
Proof. unfold neighbors, unit_offset. repeat constructor; simpl; lia. Qed.

Lemma Point_add_unit p d :
  interior p → unit_offset d →
  Point_add p d = Some {| x := x p + x d; y := y p + y d |}.
Proof.
  intros [Hx Hy] [Hdx Hdy]. unfold Point_add.
  rewrite !int64_result_in by lia. done.
Qed.

Lemma cell_interior Width Height p :
  0 ≤ x p < Width → 0 ≤ y p < Height → Width * Height ≤ PTRDIFF_MAX →
  interior p.
Proof.
  unfold interior, PTRDIFF_MAX, INT64_MIN, INT64_MAX. intros Hx Hy Hfit.
  assert (H63 : 2 ^ 63 = 9223372036854775808) by reflexivity.
  nia.
Qed.

Section Neighbors.
Context (Width Height : Z).
Hypothesis width_pos : 0 < Width.
Hypothesis height_pos : 0 < Height.
Hypothesis extent_fits : Width * Height ≤ SIZE_MAX.

Lemma count_from_defined b p rest :
  wf Width Height b → interior p → Forall unit_offset rest →
  ∀ count, is_Some (count_from Width Height b p rest count).
Proof using width_pos height_pos extent_fits.
  intros Hwf Hp. induction 1 as [| d rest Hd _ IH]; intros count; simpl.
  - by eexists.
  - rewrite (Point_add_unit p d Hp Hd). simpl.
    destruct (get_defined Width Height width_pos height_pos extent_fits
                b {| x := x p + x d; y := y p + y d |} Hwf)
      as (i & _ & _ & alive & Halive).
    rewrite Halive. simpl. apply IH.
Qed.

Lemma rules_defined b p :
  wf Width Height b → interior p →
  ∃ is_alive neighbor_count,
    get Width Height b p = Some is_alive
    ∧ count_neighbors Width Height b p = Some neighbor_count
    ∧ rules Width Height b p = Some (rule_table is_alive neighbor_count).
Proof using width_pos height_pos extent_fits.
  intros Hwf Hp.
  destruct (count_from_defined b p neighbors Hwf Hp neighbors_unit 0)
    as [n Hn].
  destruct (get_defined Width Height width_pos height_pos extent_fits
              b p Hwf) as (i & _ & _ & a & Ha).
  exists a, n. unfold rules, count_neighbors in *. by rewrite Hn, Ha.
Qed.

(** Around a point of the empty board nothing is counted. *)
Lemma count_from_new_board p rest :
  interior p → Forall unit_offset rest →
  ∀ count,
    count_from Width Height (new_board Width Height) p rest count = Some count.
Proof using width_pos height_pos extent_fits.
  intros Hp. induction 1 as [| d rest Hd _ IH]; intros count; simpl.
  - done.
  - rewrite (Point_add_unit p d Hp Hd). simpl.
    rewrite get_new_board by done. simpl. apply IH.
Qed.

Lemma rules_new_board p :
  interior p → rules Width Height (new_board Width Height) p = Some false.
Proof using width_pos height_pos extent_fits.
  intros Hp. unfold rules, count_neighbors.
  rewrite (count_from_new_board p neighbors Hp neighbors_unit). simpl.
  by rewrite get_new_board.
Qed.
End Neighbors.

(** ** iterate_board *)

Section Step.
Context (Width Height : Z).
Hypothesis width_pos : 0 < Width.
Hypothesis height_pos : 0 < Height.
Hypothesis board_fits : Width * Height ≤ PTRDIFF_MAX.

Lemma extent_fits_size : Width * Height ≤ SIZE_MAX.
Proof using board_fits. unfold PTRDIFF_MAX, SIZE_MAX in *. lia. Qed.

Lemma cache_interior :
  Forall interior (row_major Width Height).
Proof using width_pos height_pos board_fits.
  apply Forall_lookup_2. intros i p Hi.
  apply row_major_lookup_inv in Hi as (Hx & Hy & _); try lia.
  by eapply cell_interior.
Qed.

Lemma cache_index (i : nat) p :
  row_major Width Height !! i = Some p →
  index Width Height p = Some (Z.of_nat i).
Proof using width_pos height_pos board_fits.
  intros Hi.
  apply row_major_lookup_inv in Hi as (Hx & Hy & ->); try lia.
  by apply index_inside.
Qed.

Lemma length_cache b :
  wf Width Height b → length (row_major Width Height) = length (data b).
Proof using width_pos height_pos board_fits.
  intros Hwf. rewrite Hwf, length_row_major by lia.
  by rewrite extent_eq by (lia || apply extent_fits_size).
Qed.

(** One step stores the image of the cache under [rules]. *)
Lemma iterate_board_stores input output vs :
  wf Width Height output →
  Forall2 (λ p v, rules Width Height input p = Some v)
          (row_major Width Height) vs →
  iterate_board Width Height input output (row_major Width Height)
  = Some {| data := vs |}.
Proof using width_pos height_pos board_fits.
  intros Hout HF. unfold iterate_board.
  rewrite (transform_whole _ _ vs) by (done || by apply length_cache).
  done.
Qed.

Lemma rules_on_cache input :
  wf Width Height input →
  ∃ vs, Forall2 (λ p v, rules Width Height input p = Some v)
                (row_major Width Height) vs.
Proof using width_pos height_pos board_fits.
  intros Hin.
  destruct (mapM_is_Some_2 (rules Width Height input)
              (row_major Width Height)) as [vs Hvs].
  - eapply Forall_impl; [apply cache_interior |].
    intros p Hp. simpl.
    destruct (rules_defined Width Height width_pos height_pos
                extent_fits_size input p Hin Hp) as (a & n & _ & _ & ->).
    by eexists.
  - exists vs. by apply mapM_Some_1.
Qed.

Lemma iterate_board_new_board output :
  wf Width Height output →
  iterate_board Width Height (new_board Width Height) output
    (row_major Width Height)
  = Some (new_board Width Height).
Proof using width_pos height_pos board_fits.
  intros Hout.
  rewrite (iterate_board_stores _ _
             (replicate (length (row_major Width Height)) false)); try done.
  - unfold new_board. do 2 f_equal.
    rewrite length_row_major by lia.
    by rewrite extent_eq by (lia || apply extent_fits_size).
  - apply Forall2_replicate_r; [done |].
    eapply Forall_impl; [apply cache_interior |].
    intros p Hp. simpl.
    by apply rules_new_board; try apply extent_fits_size.
Qed.

Lemma run_loop_new_board n :
  ∀ board2, wf Width Height board2 →
  ∃ board2',
    run_loop Width Height n (new_board Width Height) board2
      (row_major Width Height)
    = Some (new_board Width Height, board2').
Proof using width_pos height_pos board_fits.
  induction n as [| n IH]; intros board2 Hwf; simpl.
  - by eexists.
  - rewrite iterate_board_new_board by done. simpl.
    apply IH, wf_new_board.
Qed.
End Step.

Lemma make_indexes_cache Width Height :
  0 < Width → 0 < Height → Width * Height ≤ PTRDIFF_MAX →
  make_indexes Width Height = Some (row_major Width Height).
Proof.
  intros HW HH Hfit. unfold PTRDIFF_MAX in Hfit.
  assert (H63 : 2 ^ 63 = 9223372036854775808) by reflexivity.
  apply make_indexes_row_major; unfold INT64_MAX, SIZE_MAX;
    rewrite ?two_64; nia.
Qed.

Lemma wf_set Width Height b p b' :
  set Width Height b p = Some b' → wf Width Height b → wf Width Height b'.
Proof.
  unfold set, wf. intros Hset Hwf.
  destruct (index Width Height p) as [i |]; [| done]. simpl in Hset.
  unfold array_set in Hset.
  destruct (Z.to_nat i <? length (data b))%nat; [| done].
  simpl in Hset. injection Hset as <-. simpl. by rewrite length_insert.
Qed.

(** * The wrap of the index mapping *)

(** C1: the wrap applied by [GameBoard::index] is not the floor-modulo.  With
    a modulus of type [std::size_t] the coordinate [-1] is converted to
    [2^64 - 1] before the remainder is taken, so on the modulus [3] it wraps
    to [0], where the floor-modulo gives [3 - 1 = 2], and the wraps of [-1]
    and of [-1 + 3] differ. *)
Theorem floor_modulo_minus_one_mod_3 :
  floor_modulo (-1) 3 = Some 0
  ∧ floor_modulo (-1 + 3) 3 = Some 2
  ∧ floor_mod (-1) 3 = 3 - 1.
Proof. repeat split; reflexivity. Qed.

(** C6: on a board of positive width and height every coordinate, whatever
    its integer components, negative or not, is mapped to a linear index
    strictly below [Width * Height] (no divisor is zero); on every board
    whose array holds these [Width * Height] cells, the product being
    representable in [std::size_t], the index is a slot of the array and
    [operator[]] returns a cell. *)
Theorem get_never_fails (Width Height : Z) (p : Point) :
  0 < Width → 0 < Height →
  (∃ i, index Width Height p = Some i ∧ 0 ≤ i < Width * Height)
  ∧ (Width * Height ≤ SIZE_MAX →
     ∀ b, wf Width Height b →
       ∃ i v,
         index Width Height p = Some i
         ∧ (Z.to_nat i < length (data b))%nat
         ∧ get Width Height b p = Some v).
Proof.
  intros HW HH. split; [by apply index_below |].
  intros Hfit b Hwf.
  destruct (get_defined Width Height HW HH Hfit b p Hwf)
    as (i & Ei & Hi & v & Ev).
  exists i, v. repeat split; try done.
  rewrite Hwf, extent_eq by done. lia.
Qed.

Lemma get_never_fails_witness :
  (∃ i, index 3 3 {| x := -1; y := 7 |} = Some i ∧ 0 ≤ i < 3 * 3)
  ∧ (∃ i v,
       index 3 3 {| x := -1; y := 7 |} = Some i
       ∧ (Z.to_nat i < length (data (new_board 3 3)))%nat
       ∧ get 3 3 (new_board 3 3) {| x := -1; y := 7 |} = Some v).
Proof.
  destruct (get_never_fails 3 3 {| x := -1; y := 7 |}) as [Hindex Hget];
    [lia | lia |].
  split; [exact Hindex |].
  apply Hget; [vm_compute; discriminate | reflexivity].
Defined.

(** * The transition rule *)

(** C3: the rule is the Game-of-Life table.  For a liveness bit and a
    neighbor count from 0 to 8 it answers [true] exactly when the cell is
    alive with 2 or 3 neighbors or dead with 3: a live cell with fewer than
    2 dies, with 2 or 3 survives, with more than 3 dies; a dead cell with 3
    is born and stays dead otherwise. *)
Theorem rule_table_game_of_life (is_alive : bool) (neighbor_count : Z) :
  0 ≤ neighbor_count ≤ 8 →
  (rule_table is_alive neighbor_count = true
   ↔ (is_alive = true ∧ (neighbor_count = 2 ∨ neighbor_count = 3))
     ∨ (is_alive = false ∧ neighbor_count = 3))
  ∧ (is_alive = true → neighbor_count < 2 →
     rule_table is_alive neighbor_count = false)
  ∧ (is_alive = true → neighbor_count = 2 ∨ neighbor_count = 3 →
     rule_table is_alive neighbor_count = true)
  ∧ (is_alive = true → neighbor_count > 3 →
     rule_table is_alive neighbor_count = false)
  ∧ (is_alive = false → neighbor_count = 3 →
     rule_table is_alive neighbor_count = true)
  ∧ (is_alive = false → neighbor_count ≠ 3 →
     rule_table is_alive neighbor_count = false).
Proof.
  intros Hn. unfold rule_table.
  destruct is_alive;
    destruct (Z.ltb_spec neighbor_count 2);
    destruct (Z.leb_spec neighbor_count 3);
    destruct (Z.eqb_spec neighbor_count 3);
    repeat split; intros; try done; try lia;
    try (right; split; [done | lia]);
    try (left; split; [done | lia]);
    intuition (discriminate || lia).
Qed.

Lemma rule_table_game_of_life_witness :
  rule_table true 3 = true ∧ rule_table false 3 = true
  ∧ rule_table true 4 = false.
Proof.
  destruct (rule_table_game_of_life true 3 ltac:(lia))
    as (_ & _ & Hsurvive & _).
  destruct (rule_table_game_of_life false 3 ltac:(lia))
    as (_ & _ & _ & _ & Hbirth & _).
  destruct (rule_table_game_of_life true 4 ltac:(lia))
    as (_ & _ & _ & Hcrowd & _).
  split; [| split].
  - apply Hsurvive; [reflexivity | lia].
  - apply Hbirth; reflexivity.
  - apply Hcrowd; [reflexivity | lia].
Defined.

(** The [rules] lambda answers with the table at the cell's liveness and
    neighbor count. *)
Lemma rules_rule_table Width Height input p is_alive neighbor_count :
  get Width Height input p = Some is_alive →
  count_neighbors Width Height input p = Some neighbor_count →
  rules Width Height input p = Some (rule_table is_alive neighbor_count).
Proof. intros Ha Hn. unfold rules. by rewrite Hn, Ha. Qed.

(** * The index cache *)

(** C5: for a positive width and height (of product at most [PTRDIFF_MAX])
    the index cache has
    [Width * Height] entries and is the row-major enumeration of the
    coordinates of the board: the cell [(col, row)] stands at position
    [row * Width + col], every entry is a cell of the board, no entry is
    repeated, and the index mapping sends the entry at position [i] to the
    storage slot [i]. *)
Theorem make_indexes_enumerates (Width Height : Z) :
  0 < Width → 0 < Height → Width * Height ≤ PTRDIFF_MAX →
  ∃ cache,
    make_indexes Width Height = Some cache
    ∧ length cache = Z.to_nat (Width * Height)
    ∧ (∀ col row, 0 ≤ col < Width → 0 ≤ row < Height →
         cache !! Z.to_nat (row * Width + col) = Some {| x := col; y := row |})
    ∧ (∀ p, p ∈ cache → 0 ≤ x p < Width ∧ 0 ≤ y p < Height)
    ∧ NoDup cache
    ∧ (∀ (i : nat) p, cache !! i = Some p →
         index Width Height p = Some (Z.of_nat i)).
Proof.
  intros HW HH Hfit. exists (row_major Width Height).
  split; [by apply make_indexes_cache |].
  split; [apply length_row_major; lia |].
  split; [intros; by apply lookup_row_major |].
  split; [| split].
  - intros p [i Hi]%list_elem_of_lookup.
    apply row_major_lookup_inv in Hi; lia.
  - apply NoDup_alt. intros i j p Hi Hj.
    apply row_major_lookup_inv in Hi as (_ & _ & Hi); try lia.
    apply row_major_lookup_inv in Hj as (_ & _ & Hj); try lia.
  - intros i p Hi. by apply cache_index.
Qed.

Lemma make_indexes_enumerates_witness :
  ∃ cache,
    make_indexes 3 2 = Some cache
    ∧ length cache = Z.to_nat (3 * 2)
    ∧ (∀ col row, 0 ≤ col < 3 → 0 ≤ row < 2 →
         cache !! Z.to_nat (row * 3 + col) = Some {| x := col; y := row |})
    ∧ (∀ p, p ∈ cache → 0 ≤ x p < 3 ∧ 0 ≤ y p < 2)
    ∧ NoDup cache
    ∧ (∀ (i : nat) p, cache !! i = Some p →
         index 3 2 p = Some (Z.of_nat i)).
Proof.
  apply (make_indexes_enumerates 3 2); [lia | lia | vm_compute; discriminate].
Defined.

(** * One step *)

(** C4: for two boards of the same positive dimensions (of product at most
    [PTRDIFF_MAX]) and the cache of those dimensions, one step succeeds and stores in every slot [i] of the output
    the rule's answer for the liveness and the neighbor count that the input
    board has at the [i]-th coordinate of the cache; the output keeps its
    length, and the result is the same whatever the output held before. *)
Theorem iterate_board_pointwise (Width Height : Z) (current next : GameBoard) :
  0 < Width → 0 < Height → Width * Height ≤ PTRDIFF_MAX →
  wf Width Height current → wf Width Height next →
  ∃ cache next',
    make_indexes Width Height = Some cache
    ∧ iterate_board Width Height current next cache = Some next'
    ∧ length (data next') = length (data next)
    ∧ (∀ i : nat, (i < length (data next'))%nat →
         ∃ p is_alive neighbor_count,
           cache !! i = Some p
           ∧ get Width Height current p = Some is_alive
           ∧ count_neighbors Width Height current p = Some neighbor_count
           ∧ data next' !! i = Some (rule_table is_alive neighbor_count))
    ∧ (∀ other, wf Width Height other →
         iterate_board Width Height current other cache = Some next').
Proof.
  intros HW HH Hfit Hcur Hnext.
  destruct (rules_on_cache Width Height HW HH Hfit current Hcur) as [vs Hvs].
  pose proof (Forall2_length _ _ _ Hvs) as Hlen.
  exists (row_major Width Height), {| data := vs |}.
  split; [by apply make_indexes_cache |].
  split; [by apply iterate_board_stores |].
  split; [simpl; rewrite <- Hlen; by apply length_cache |].
  split; [| intros other Hother; by apply iterate_board_stores].
  simpl. intros i Hi.
  destruct (lookup_lt_is_Some_2 (row_major Width Height) i) as [p Hp];
    [lia |].
  destruct (Forall2_lookup_l _ _ _ i p Hvs Hp) as (v & Hv & Hrule).
  pose proof (Forall_lookup_1 _ _ _ _
                (cache_interior Width Height HW HH Hfit) Hp) as Hint.
  destruct (rules_defined Width Height HW HH
              (extent_fits_size Width Height Hfit) current p Hcur Hint)
    as (a & n & Ha & Hn & Hr).
  exists p, a, n. repeat split; try done. congruence.
Qed.

Lemma iterate_board_pointwise_witness :
  ∃ cache next',
    make_indexes 2 2 = Some cache
    ∧ iterate_board 2 2 sample_2x2 (new_board 2 2) cache = Some next'
    ∧ length (data next') = length (data (new_board 2 2))
    ∧ (∀ i : nat, (i < length (data next'))%nat →
         ∃ p is_alive neighbor_count,
           cache !! i = Some p
           ∧ get 2 2 sample_2x2 p = Some is_alive
           ∧ count_neighbors 2 2 sample_2x2 p = Some neighbor_count
           ∧ data next' !! i = Some (rule_table is_alive neighbor_count))
    ∧ (∀ other, wf 2 2 other →
         iterate_board 2 2 sample_2x2 other cache = Some next').
Proof.
  apply (iterate_board_pointwise 2 2 sample_2x2 (new_board 2 2));
    [lia | lia | vm_compute; discriminate | reflexivity | reflexivity].
Defined.

(** * The simulation loop *)

Lemma all_dead_new_board Width Height b :
  wf Width Height b → Forall (λ cell, cell = false) (data b) →
  b = new_board Width Height.
Proof.
  intros Hwf Hdead. destruct b as [d]. unfold new_board. simpl in *. f_equal.
  symmetry. apply replicate_as_Forall_2; [done |].
  eapply Forall_impl; [exact Hdead |]. by intros cell ->.
Qed.

(** C7: on a board of positive width and height (of product at most
    [PTRDIFF_MAX]) whose cells are all dead,
    the simulation run for any number of iterations returns a board of the
    same dimensions whose cells are all dead. *)
Theorem all_dead_stays_dead (Width Height : Z) (b : GameBoard) (n : nat) :
  0 < Width → 0 < Height → Width * Height ≤ PTRDIFF_MAX →
  wf Width Height b → Forall (λ cell, cell = false) (data b) →
  ∃ final,
    run_from Width Height b n = Some final
    ∧ wf Width Height final
    ∧ Forall (λ cell, cell = false) (data final)
    ∧ (∀ p, get Width Height final p = Some false).
Proof.
  intros HW HH Hfit Hwf Hdead.
  rewrite (all_dead_new_board Width Height b Hwf Hdead).
  exists (new_board Width Height). unfold run_from.
  rewrite make_indexes_cache by done. simpl.
  destruct (run_loop_new_board Width Height HW HH Hfit n
              (new_board Width Height) (wf_new_board Width Height))
    as [board2' ->].
  simpl. split; [done |]. split; [apply wf_new_board |].
  split; [by apply Forall_replicate |].
  intros p. apply get_new_board; try done.
  by apply extent_fits_size.
Qed.

Lemma all_dead_stays_dead_witness :
  ∃ final,
    run_from 4 3 (new_board 4 3) 5 = Some final
    ∧ wf 4 3 final
    ∧ Forall (λ cell, cell = false) (data final)
    ∧ (∀ p, get 4 3 final p = Some false).
Proof.
  apply (all_dead_stays_dead 4 3 (new_board 4 3) 5);
    [lia | lia | vm_compute; discriminate | reflexivity
    | by apply Forall_replicate].
Defined.

(** C9: with an iteration count of 0 the simulation, on any initial board
    of positive dimensions (of product at most [PTRDIFF_MAX]), builds the
    index cache, does not enter the loop and returns the initial board, cell
    by cell. *)
Theorem zero_iterations_unchanged (Width Height : Z) (b : GameBoard) :
  0 < Width → 0 < Height → Width * Height ≤ PTRDIFF_MAX →
  ∃ final,
    run_from Width Height b 0 = Some final
    ∧ data final = data b
    ∧ (∀ p, get Width Height final p = get Width Height b p).
Proof.
  intros HW HH Hfit. exists b. unfold run_from.
  by rewrite make_indexes_cache by done.
Qed.

Lemma zero_iterations_unchanged_witness :
  ∃ final,
    run_from 2 2 sample_2x2 0 = Some final
    ∧ data final = data sample_2x2
    ∧ (∀ p, get 2 2 final p = get 2 2 sample_2x2 p).
Proof.
  apply (zero_iterations_unchanged 2 2 sample_2x2);
    [lia | lia | vm_compute; discriminate].
Defined.

(** * Scenarios *)

(** C8: on the 20 by 20 board seeded with one glider at the anchor (1, 3),
    whose live cells are the five offsets (0,0), (1,1), (2,1), (0,2), (1,2)
    from the anchor, four steps give the board seeded with one glider at the
    anchor (2, 4): its live cells are the same five offsets from (2, 4) and
    no other cell of the board is alive. *)
Theorem glider_translates :
  ∃ seeded final,
    add_glider 20 20 (new_board 20 20) {| x := 1; y := 3 |} = Some seeded
    ∧ live_cells 20 20 seeded
      = [ {| x := 1; y := 3 |}; {| x := 2; y := 4 |}; {| x := 3; y := 4 |};
          {| x := 1; y := 5 |}; {| x := 2; y := 5 |} ]
    ∧ run_from 20 20 seeded 4 = Some final
    ∧ add_glider 20 20 (new_board 20 20) {| x := 2; y := 4 |} = Some final
    ∧ live_cells 20 20 final
      = [ {| x := 2; y := 4 |}; {| x := 3; y := 5 |}; {| x := 4; y := 5 |};
          {| x := 2; y := 6 |}; {| x := 3; y := 6 |} ].
Proof.
  eexists _, _.
  split; [vm_compute; reflexivity |].
  split; [vm_compute; reflexivity |].
  split; [vm_compute; reflexivity |].
  split; vm_compute; reflexivity.
Qed.

(** C2: on the 3 by 3 board whose only live cell is (0, 0), the offset -1
    wraps to the coordinate 0 instead of 2, so the origin counts itself:
    [count_neighbors] answers 3 at (0, 0), where no neighbor is alive, and 2
    at (1, 0), (2, 0), (0, 1) and (0, 2), each of which has one live
    neighbor; after one step the origin is still alive and the board is not
    all-dead. *)
Theorem origin_counts_itself_3x3 :
  ∃ b,
    set 3 3 (new_board 3 3) {| x := 0; y := 0 |} = Some b
    ∧ live_cells 3 3 b = [ {| x := 0; y := 0 |} ]
    ∧ count_neighbors 3 3 b {| x := 0; y := 0 |} = Some 3
    ∧ mapM (count_neighbors 3 3 b) (row_major 3 3)
      = Some [3; 2; 2; 2; 1; 1; 2; 1; 1]
    ∧ run_from 3 3 b 1 = Some b.
Proof.
  eexists. split; [vm_compute; reflexivity |].
  repeat split; vm_compute; reflexivity.
Qed.

(** * Seeding *)

Lemma add_glider_keeps_alive Width Height b p b' c :
  add_glider Width Height b p = Some b' →
  get Width Height b c = Some true → get Width Height b' c = Some true.
Proof.
  unfold add_glider. intros Hadd Hc.
  apply bind_Some in Hadd as (b1 & H1 & Hadd).
  apply bind_Some in Hadd as (q2 & _ & Hadd).
  apply bind_Some in Hadd as (b2 & H2 & Hadd).
  apply bind_Some in Hadd as (q3 & _ & Hadd).
  apply bind_Some in Hadd as (b3 & H3 & Hadd).
  apply bind_Some in Hadd as (q4 & _ & Hadd).
  apply bind_Some in Hadd as (b4 & H4 & Hadd).
  apply bind_Some in Hadd as (q5 & _ & H5).
  eauto 10 using set_keeps_alive.
Qed.

Lemma add_glider_defined Width Height b p :
  0 < Width → 0 < Height → Width * Height ≤ SIZE_MAX →
  wf Width Height b → anchor p →
  ∃ b', add_glider Width Height b p = Some b' ∧ wf Width Height b'.
Proof.
  intros HW HH Hfit Hwf [Hx Hy]. unfold add_glider, Point_add. simpl.
  assert (Hset : ∀ b0 q, wf Width Height b0 →
            ∃ b1, set Width Height b0 q = Some b1 ∧ wf Width Height b1).
  { intros b0 q Hwf0.
    destruct (set_defined Width Height HW HH Hfit b0 q Hwf0)
      as (i & _ & _ & Hs).
    eexists; split; [exact Hs |]. by eapply wf_set. }
  destruct (Hset b p Hwf) as (b1 & -> & Hwf1). simpl.
  rewrite ?int64_result_in by lia. simpl.
  destruct (Hset b1 {| x := x p + 1; y := y p + 1 |} Hwf1)
    as (b2 & -> & Hwf2). simpl.
  rewrite ?int64_result_in by lia. simpl.
  destruct (Hset b2 {| x := x p + 2; y := y p + 1 |} Hwf2)
    as (b3 & -> & Hwf3). simpl.
  rewrite ?int64_result_in by lia. simpl.
  destruct (Hset b3 {| x := x p + 0; y := y p + 2 |} Hwf3)
    as (b4 & -> & Hwf4). simpl.
  rewrite ?int64_result_in by lia. simpl.
  apply Hset, Hwf4.
Qed.

(** C10: seeding only adds live cells.  A cell alive before [set] is alive
    after it, hence also after the five [set] calls of [add_glider] and
    after two gliders in a row, overlapping or not; and on a board of
    positive dimensions [set] succeeds at every coordinate and [add_glider]
    at every anchor whose offsets stay within [std::int64_t]. *)
Theorem seeding_monotone (Width Height : Z) (b : GameBoard) (c : Point) :
  get Width Height b c = Some true →
  (∀ p b', set Width Height b p = Some b' →
     get Width Height b' c = Some true)
  ∧ (∀ p b', add_glider Width Height b p = Some b' →
       get Width Height b' c = Some true)
  ∧ (∀ p q b' b'',
       add_glider Width Height b p = Some b' →
       add_glider Width Height b' q = Some b'' →
       get Width Height b'' c = Some true)
  ∧ (0 < Width → 0 < Height → Width * Height ≤ SIZE_MAX →
     wf Width Height b →
     (∀ p, is_Some (set Width Height b p))
     ∧ (∀ p q, anchor p → anchor q →
          ∃ b' b'', add_glider Width Height b p = Some b'
                    ∧ add_glider Width Height b' q = Some b'')).
Proof.
  intros Hc. split; [| split; [| split]].
  - intros p b' Hset. by eapply set_keeps_alive.
  - intros p b' Hadd. by eapply add_glider_keeps_alive.
  - intros p q b' b'' Hp Hq. eauto using add_glider_keeps_alive.
  - intros HW HH Hfit Hwf. split.
    + intros p.
      destruct (set_defined Width Height HW HH Hfit b p Hwf)
        as (i & _ & _ & ->).
      by eexists.
    + intros p q Hp Hq.
      destruct (add_glider_defined Width Height b p HW HH Hfit Hwf Hp)
        as (b' & Eb' & Hwf').
      destruct (add_glider_defined Width Height b' q HW HH Hfit Hwf' Hq)
        as (b'' & Eb'' & _).
      by exists b', b''.
Qed.

Lemma anchor_small p : 0 ≤ x p ≤ 1000 → 0 ≤ y p ≤ 1000 → anchor p.
Proof.
  unfold anchor, INT64_MIN, INT64_MAX.
  assert (H63 : 2 ^ 63 = 9223372036854775808) by reflexivity. lia.
Qed.

Lemma seeding_monotone_witness :
  ∃ b' b'',
    add_glider 2 2 sample_2x2 {| x := 0; y := 0 |} = Some b'
    ∧ add_glider 2 2 b' {| x := 1; y := 0 |} = Some b''
    ∧ get 2 2 b'' {| x := 1; y := 1 |} = Some true.
Proof.
  destruct (seeding_monotone 2 2 sample_2x2 {| x := 1; y := 1 |})
    as (_ & _ & Htwice & Hdefined); [reflexivity |].
  destruct Hdefined as [_ Hgliders];
    [lia | lia | vm_compute; discriminate | reflexivity |].
  destruct (Hgliders {| x := 0; y := 0 |} {| x := 1; y := 0 |})
    as (b' & b'' & E' & E''); [apply anchor_small; simpl; lia .. |].
  exists b', b''. split; [exact E' |]. split; [exact E'' |].
  exact (Htwice _ _ _ _ E' E'').
Defined.

(** * Where the wrap is toroidal *)

(** Closed bounds on machine constants. *)
Ltac bound :=
  simpl; repeat split; first [ lia | reflexivity | vm_compute; discriminate ].

Lemma floor_modulo_pow2 k j :
  0 ≤ j ≤ 63 → floor_modulo k (2 ^ j) = Some (floor_mod k (2 ^ j)).
Proof.
  intros Hj.
  assert (Hpos : 0 < 2 ^ j) by (apply Z.pow_pos_nonneg; lia).
  assert (Hle : 2 ^ j ≤ 2 ^ 63) by (apply Z.pow_le_mono_r; lia).
  rewrite floor_modulo_unsigned by lia. f_equal.
  unfold to_size_t, floor_mod.
  apply Z.mod_mod_divide.
  exists (2 ^ (64 - j)). rewrite <- Z.pow_add_r by lia. f_equal. lia.
Qed.

(** X1: on a board whose width and height are powers of two the index
    mapping is the toroidal one for every coordinate, negative or not: the
    row is the floor-modulo of [y] by the height, the column that of [x] by
    the width. *)
Theorem index_power_of_two (a b : Z) (p : Point) :
  0 ≤ a → 0 ≤ b → a + b ≤ 63 →
  index (2 ^ a) (2 ^ b) p
  = Some (floor_mod (y p) (2 ^ b) * 2 ^ a + floor_mod (x p) (2 ^ a)).
Proof.
  intros Ha Hb Hab. unfold index, width, height.
  rewrite !floor_modulo_pow2 by lia. simpl. f_equal.
  assert (HW : 0 < 2 ^ a) by (apply Z.pow_pos_nonneg; lia).
  assert (HH : 0 < 2 ^ b) by (apply Z.pow_pos_nonneg; lia).
  apply (linear_index_eq (2 ^ a) (2 ^ b)); try done.
  - rewrite <- Z.pow_add_r by lia.
    assert (2 ^ (a + b) ≤ 2 ^ 63) by (apply Z.pow_le_mono_r; lia).
    unfold SIZE_MAX. rewrite two_64.
    assert (H63 : 2 ^ 63 = 9223372036854775808) by reflexivity. lia.
  - by apply Z.mod_pos_bound.
  - by apply Z.mod_pos_bound.
Qed.

Lemma index_power_of_two_witness :
  index (2 ^ 2) (2 ^ 3) {| x := -1; y := -9 |}
  = Some (floor_mod (-9) (2 ^ 3) * 2 ^ 2 + floor_mod (-1) (2 ^ 2)).
Proof.
  apply (index_power_of_two 2 3 {| x := -1; y := -9 |}); lia.
Defined.

(** X2: whatever the dimensions, a coordinate with non-negative components
    is wrapped toroidally, so the cells past the right and the bottom edge
    are those of the first column and the first row. *)
Theorem index_nonnegative (Width Height : Z) (p : Point) :
  0 < Width → 0 < Height → Width * Height ≤ PTRDIFF_MAX →
  0 ≤ x p ≤ INT64_MAX → 0 ≤ y p ≤ INT64_MAX →
  index Width Height p
  = Some (floor_mod (y p) Height * Width + floor_mod (x p) Width).
Proof.
  intros HW HH Hfit Hx Hy. unfold PTRDIFF_MAX in Hfit.
  assert (H63 : 2 ^ 63 = 9223372036854775808) by reflexivity.
  unfold index, width, height.
  rewrite !floor_modulo_nonneg by nia. simpl. f_equal.
  apply (linear_index_eq Width Height); try lia.
  - unfold SIZE_MAX. rewrite two_64. lia.
  - by apply Z.mod_pos_bound.
  - by apply Z.mod_pos_bound.
Qed.

Lemma index_nonnegative_witness :
  index 20 20 {| x := 20; y := 41 |}
  = Some (floor_mod 41 20 * 20 + floor_mod 20 20).
Proof.
  apply (index_nonnegative 20 20 {| x := 20; y := 41 |}); bound.
Defined.

(** X3: the coordinate [-1] wraps to the last column (or row), [m - 1],
    exactly when the dimension [m] divides [2^64]. *)
Theorem floor_modulo_minus_one (m : Z) :
  0 < m ≤ 2 ^ 63 →
  floor_modulo (-1) m = Some (m - 1) ↔ 2 ^ 64 mod m = 0.
Proof.
  intros Hm. rewrite floor_modulo_unsigned by done.
  change (to_size_t (-1)) with (2 ^ 64 - 1).
  pose proof (Z.div_mod (2 ^ 64) m ltac:(lia)) as Hdm.
  pose proof (Z.mod_pos_bound (2 ^ 64) m ltac:(lia)) as Hr.
  set (q := 2 ^ 64 / m) in *. set (r := 2 ^ 64 mod m) in *.
  split.
  - intros [= Heq].
    destruct (decide (r = 0)) as [| Hne]; [done |].
    assert (Hmod : (2 ^ 64 - 1) mod m = r - 1).
    { symmetry. apply (Z.mod_unique_pos _ _ q); lia. }
    lia.
  - intros Hr0. f_equal. symmetry.
    apply (Z.mod_unique_pos _ _ (q - 1)); lia.
Qed.

Lemma floor_modulo_minus_one_witness :
  (floor_modulo (-1) 16 = Some (16 - 1) ↔ 2 ^ 64 mod 16 = 0)
  ∧ (floor_modulo (-1) 20 = Some (20 - 1) ↔ 2 ^ 64 mod 20 = 0).
Proof.
  split.
  - apply (floor_modulo_minus_one 16). bound.
  - apply (floor_modulo_minus_one 20). bound.
Defined.

(** * Counting neighbors *)

Lemma count_from_cells Width Height b p rest :
  ∀ count,
    0 ≤ count → count + Z.of_nat (length rest) ≤ SIZE_MAX →
    count_from Width Height b p rest count
    = (λ cells, count + count_alive cells)
        <$> mapM (λ d, q ← Point_add p d; get Width Height b q) rest.
Proof.
  unfold count_alive.
  induction rest as [| d rest IH]; intros count Hc Hmax; simpl.
  - f_equal. lia.
  - destruct (Point_add p d) as [q |]; simpl; [| done].
    destruct (get Width Height b q) as [alive |]; simpl; [| done].
    simpl in Hmax. rewrite IH.
    + destruct (mapM _ rest) as [cells |]; simpl; [| done]. f_equal.
      destruct alive; simpl; [| done].
      unfold size_add. rewrite to_size_t_id; lia.
    + destruct alive; [| done]. unfold size_add. rewrite to_size_t_id; lia.
    + destruct alive; [| lia]. unfold size_add. rewrite to_size_t_id; lia.
Qed.

(** X4: [count_neighbors] is the number of live cells among the eight cells
    around the point, and fails exactly when one of these lookups does; its
    answer lies between 0 and 8. *)
Theorem count_neighbors_counts_alive
    (Width Height : Z) (b : GameBoard) (p : Point) :
  count_neighbors Width Height b p
  = count_alive <$> neighbor_cells Width Height b p
  ∧ (∀ n, count_neighbors Width Height b p = Some n → 0 ≤ n ≤ 8).
Proof.
  assert (Heq : count_neighbors Width Height b p
                = count_alive <$> neighbor_cells Width Height b p).
  { unfold count_neighbors, neighbor_cells.
    rewrite count_from_cells by bound.
    by destruct (mapM _ neighbors). }
  split; [exact Heq |].
  intros n. rewrite Heq. unfold neighbor_cells.
  destruct (mapM _ neighbors) as [cells |] eqn:Hcells; [| done].
  simpl. intros [= <-].
  apply length_mapM in Hcells. unfold count_alive.
  pose proof (length_filter (λ cell : bool, cell = true) cells) as Hle.
  simpl in Hcells. lia.
Qed.

(** * Seeding cell by cell *)

Lemma lookup_mark slots (d : list bool) (k : nat) :
  mark slots d !! k = (λ v, v || bool_decide (k ∈ slots)) <$> d !! k.
Proof.
  unfold mark. revert d.
  induction slots as [| i slots IH]; intros d; simpl.
  - destruct (d !! k) as [v |]; simpl; [| done].
    by rewrite orb_false_r.
  - rewrite IH. destruct (decide (k = i)) as [-> | Hne].
    + destruct (d !! i) as [v |] eqn:Hv.
      * rewrite list_lookup_insert_eq by (by eapply lookup_lt_Some). simpl.
        rewrite (bool_decide_eq_true_2 (i ∈ i :: slots))
          by (apply elem_of_cons; by left).
        by rewrite orb_true_r.
      * rewrite list_insert_ge by (by apply lookup_ge_None).
        by rewrite Hv.
    + rewrite list_lookup_insert_ne by done.
      destruct (d !! k) as [v |]; simpl; [| done]. do 2 f_equal.
      apply bool_decide_ext. rewrite elem_of_cons. intuition congruence.
Qed.

Lemma length_mark slots (d : list bool) : length (mark slots d) = length d.
Proof.
  unfold mark. revert d.
  induction slots as [| i slots IH]; intros d; simpl; [done |].
  by rewrite IH, length_insert.
Qed.

Lemma mark_commute slots1 slots2 (d : list bool) :
  mark slots2 (mark slots1 d) = mark slots1 (mark slots2 d).
Proof.
  apply list_eq. intros k. rewrite !lookup_mark.
  destruct (d !! k) as [v |]; simpl; [| done].
  f_equal. rewrite <- !orb_assoc. f_equal. apply orb_comm.
Qed.

Lemma mark_app slots1 slots2 (d : list bool) :
  mark (slots1 ++ slots2) d = mark slots2 (mark slots1 d).
Proof. unfold mark. apply foldl_app. Qed.

Section Seeding.
Context (Width Height : Z).
Hypothesis width_pos : 0 < Width.
Hypothesis height_pos : 0 < Height.
Hypothesis extent_fits : Width * Height ≤ SIZE_MAX.

Lemma set_stores b p :
  wf Width Height b →
  ∃ i, index Width Height p = Some i ∧ 0 ≤ i < Width * Height
       ∧ set Width Height b p
         = Some {| data := <[Z.to_nat i := true]> (data b) |}.
Proof using width_pos height_pos extent_fits.
  intros Hwf.
  destruct (index_in_extent Width Height width_pos height_pos extent_fits p)
    as (i & Ei & Hi).
  destruct (set_defined Width Height width_pos height_pos extent_fits b p Hwf)
    as (i' & Ei' & _ & Hset).
  exists i. rewrite Ei in Ei'. injection Ei' as <-. done.
Qed.

Lemma set_stores_data d p :
  length d = Z.to_nat (extent Width Height) →
  ∃ i, index Width Height p = Some i ∧ 0 ≤ i < Width * Height
       ∧ set Width Height {| data := d |} p
         = Some {| data := <[Z.to_nat i := true]> d |}.
Proof using width_pos height_pos extent_fits.
  intros Hlen. by apply (set_stores {| data := d |} p).
Qed.

Lemma wf_mark slots b :
  wf Width Height b → wf Width Height {| data := mark slots (data b) |}.
Proof. unfold wf. simpl. by rewrite length_mark. Qed.

Lemma add_glider_marks b p :
  wf Width Height b → anchor p →
  ∃ slots,
    glider_slots Width Height p = Some slots
    ∧ length slots = 5%nat
    ∧ Forall (λ i, 0 ≤ i < Width * Height) slots
    ∧ add_glider Width Height b p
      = Some {| data := mark (Z.to_nat <$> slots) (data b) |}.
Proof using width_pos height_pos extent_fits.
  intros Hwf [Hx Hy].
  unfold add_glider, glider_slots, glider_offsets, Point_add. simpl.
  rewrite !int64_result_in by lia. simpl.
  replace {| x := x p + 0; y := y p + 0 |} with p
    by (destruct p; simpl; f_equal; lia).
  destruct (set_stores b p Hwf) as (i1 & E1 & H1 & ->). simpl.
  rewrite E1. simpl.
  destruct (set_stores_data (<[Z.to_nat i1 := true]> (data b))
              {| x := x p + 1; y := y p + 1 |})
    as (i2 & E2 & H2 & ->); [by rewrite length_insert |].
  simpl. rewrite E2. simpl.
  destruct (set_stores_data
              (<[Z.to_nat i2 := true]> (<[Z.to_nat i1 := true]> (data b)))
              {| x := x p + 2; y := y p + 1 |})
    as (i3 & E3 & H3 & ->); [by rewrite !length_insert |].
  simpl. rewrite E3. simpl.
  destruct (set_stores_data
              (<[Z.to_nat i3 := true]>
                 (<[Z.to_nat i2 := true]> (<[Z.to_nat i1 := true]> (data b))))
              {| x := x p + 0; y := y p + 2 |})
    as (i4 & E4 & H4 & ->); [by rewrite !length_insert |].
  simpl. rewrite E4. simpl.
  destruct (set_stores_data
              (<[Z.to_nat i4 := true]>
                 (<[Z.to_nat i3 := true]>
                    (<[Z.to_nat i2 := true]>
                       (<[Z.to_nat i1 := true]> (data b)))))
              {| x := x p + 1; y := y p + 2 |})
    as (i5 & E5 & H5 & ->); [by rewrite !length_insert |].
  simpl. rewrite E5. simpl.
  eexists. split; [done |]. split; [done |].
  split; [| done]. by repeat apply Forall_cons_2; try apply Forall_nil_2.
Qed.
End Seeding.

(** X5: on a board of positive dimensions [set] succeeds at every
    coordinate; afterwards the cell read at that coordinate is alive and the
    cell read at any coordinate mapped to another slot is what it was. *)
Theorem set_then_get (Width Height : Z) (b : GameBoard) (p : Point) :
  0 < Width → 0 < Height → Width * Height ≤ SIZE_MAX →
  wf Width Height b →
  ∃ b',
    set Width Height b p = Some b'
    ∧ wf Width Height b'
    ∧ get Width Height b' p = Some true
    ∧ (∀ q, index Width Height q ≠ index Width Height p →
         get Width Height b' q = get Width Height b q).
Proof.
  intros HW HH Hfit Hwf.
  destruct (set_stores Width Height HW HH Hfit b p Hwf)
    as (i & Ei & Hi & Hset).
  eexists. split; [exact Hset |].
  assert (Hlt : (Z.to_nat i < length (data b))%nat)
    by (rewrite Hwf, extent_eq by done; lia).
  split; [unfold wf; simpl; by rewrite length_insert |].
  split.
  - unfold get, array_get. rewrite Ei. simpl.
    by apply list_lookup_insert_eq.
  - intros q Hq. unfold get, array_get.
    destruct (index_in_extent Width Height HW HH Hfit q) as (j & Ej & Hj).
    rewrite Ej in *. simpl. rewrite Ei in Hq.
    apply list_lookup_insert_ne. intros Heq. apply Hq. f_equal. lia.
Qed.

Lemma set_then_get_witness :
  ∃ b',
    set 2 2 sample_2x2 {| x := -2; y := 1 |} = Some b'
    ∧ wf 2 2 b'
    ∧ get 2 2 b' {| x := -2; y := 1 |} = Some true
    ∧ (∀ q, index 2 2 q ≠ index 2 2 {| x := -2; y := 1 |} →
         get 2 2 b' q = get 2 2 sample_2x2 q).
Proof.
  apply (set_then_get 2 2 sample_2x2 {| x := -2; y := 1 |}); bound.
Defined.

(** X6: on a board of positive dimensions [add_glider] succeeds at every
    anchor whose offsets stay within [std::int64_t]; it touches the slots of
    the five cells anchor + offset and nothing else: a cell is alive
    afterwards exactly when it was alive before or its coordinate is mapped
    to one of these five slots. *)
Theorem add_glider_footprint (Width Height : Z) (b : GameBoard) (p : Point) :
  0 < Width → 0 < Height → Width * Height ≤ SIZE_MAX →
  wf Width Height b → anchor p →
  ∃ slots b',
    glider_slots Width Height p = Some slots
    ∧ length slots = 5%nat
    ∧ add_glider Width Height b p = Some b'
    ∧ wf Width Height b'
    ∧ (∀ c, get Width Height b' c = Some true
            ↔ get Width Height b c = Some true
              ∨ ∃ i, index Width Height c = Some i ∧ i ∈ slots).
Proof.
  intros HW HH Hfit Hwf Hp.
  destruct (add_glider_marks Width Height HW HH Hfit b p Hwf Hp)
    as (slots & Hslots & Hlen & Hrange & Hadd).
  exists slots. eexists. split; [done |]. split; [done |].
  split; [exact Hadd |]. split; [by apply wf_mark |].
  intros c. unfold get, array_get.
  destruct (index_in_extent Width Height HW HH Hfit c) as (j & Ej & Hj).
  rewrite Ej. simpl. rewrite lookup_mark.
  destruct (lookup_lt_is_Some_2 (data b) (Z.to_nat j)) as [v Hv];
    [rewrite Hwf, extent_eq by done; lia |].
  rewrite Hv. simpl.
  assert (Hmem : Z.to_nat j ∈ Z.to_nat <$> slots ↔ j ∈ slots).
  { rewrite list_elem_of_fmap. split.
    - intros (k & Hk & Hin).
      pose proof (proj1 (Forall_forall _ _) Hrange k Hin) as Hk0.
      simpl in Hk0. by replace j with k by lia.
    - intros Hin. by exists j. }
  split.
  - intros [= Hor]. apply orb_true_iff in Hor as [-> | Hin]; [by left |].
    right. exists j. split; [done |].
    apply bool_decide_eq_true_1 in Hin. by apply Hmem.
  - intros [[= ->] | (i & [= <-] & Hin)]; [done |].
    f_equal. apply orb_true_iff. right.
    apply bool_decide_eq_true_2. by apply Hmem.
Qed.

Lemma add_glider_footprint_witness :
  ∃ slots b',
    glider_slots 4 4 {| x := 3; y := 2 |} = Some slots
    ∧ length slots = 5%nat
    ∧ add_glider 4 4 (new_board 4 4) {| x := 3; y := 2 |} = Some b'
    ∧ wf 4 4 b'
    ∧ (∀ c, get 4 4 b' c = Some true
            ↔ get 4 4 (new_board 4 4) c = Some true
              ∨ ∃ i, index 4 4 c = Some i ∧ i ∈ slots).
Proof.
  apply (add_glider_footprint 4 4 (new_board 4 4) {| x := 3; y := 2 |});
    bound.
Defined.

(** X7: two gliders can be seeded in either order: on a board of positive
    dimensions both orders succeed and give the same board. *)
Theorem add_glider_commutes (Width Height : Z) (b : GameBoard) (p q : Point) :
  0 < Width → 0 < Height → Width * Height ≤ SIZE_MAX →
  wf Width Height b → anchor p → anchor q →
  ∃ seeded,
    add_glider Width Height b p ≫= (λ b', add_glider Width Height b' q)
    = Some seeded
    ∧ add_glider Width Height b q ≫= (λ b', add_glider Width Height b' p)
      = Some seeded.
Proof.
  intros HW HH Hfit Hwf Hp Hq.
  destruct (add_glider_marks Width Height HW HH Hfit b p Hwf Hp)
    as (sp & Hsp & _ & _ & Hbp).
  destruct (add_glider_marks Width Height HW HH Hfit b q Hwf Hq)
    as (sq & Hsq & _ & _ & Hbq).
  destruct (add_glider_marks Width Height HW HH Hfit _ q
              (wf_mark Width Height (Z.to_nat <$> sp) b Hwf) Hq)
    as (sq' & Hsq' & _ & _ & Hbpq).
  destruct (add_glider_marks Width Height HW HH Hfit _ p
              (wf_mark Width Height (Z.to_nat <$> sq) b Hwf) Hp)
    as (sp' & Hsp' & _ & _ & Hbqp).
  rewrite Hsq in Hsq'. injection Hsq' as <-.
  rewrite Hsp in Hsp'. injection Hsp' as <-.
  eexists. rewrite Hbp, Hbq. simpl. rewrite Hbpq, Hbqp. simpl.
  split; [done |]. by rewrite mark_commute.
Qed.

Lemma add_glider_commutes_witness :
  ∃ seeded,
    add_glider 20 20 (new_board 20 20) {| x := 1; y := 3 |}
      ≫= (λ b', add_glider 20 20 b' {| x := 10; y := 1 |})
    = Some seeded
    ∧ add_glider 20 20 (new_board 20 20) {| x := 10; y := 1 |}
        ≫= (λ b', add_glider 20 20 b' {| x := 1; y := 3 |})
      = Some seeded.
Proof.
  apply (add_glider_commutes 20 20 (new_board 20 20)
           {| x := 1; y := 3 |} {| x := 10; y := 1 |}); bound.
Defined.

(** * The index range of a step *)

Lemma transform_too_long {A B} (op : A → option B) first :
  ∀ out (pos : nat),
    (pos ≤ length out)%nat → (length out < pos + length first)%nat →
    transform first out (Z.of_nat pos) op = None.
Proof.
  induction first as [| a first IH]; intros out pos Hpos Hlen; simpl in *.
  - lia.
  - destruct (op a) as [v |]; simpl; [| done].
    unfold array_set. rewrite Nat2Z.id.
    destruct (Nat.ltb_spec pos (length out)) as [Hlt | Hge]; simpl; [| done].
    replace (Z.of_nat pos + 1) with (Z.of_nat (S pos)) by lia.
    apply IH; rewrite length_insert; lia.
Qed.

(** X8: [iterate_board] takes the index range as it is given.  With more
    indices than the output has cells the step is undefined (a store past
    the end of the array); with fewer it stores the rule's answers in the
    first slots and leaves the rest of the output as it was. *)
Theorem iterate_board_index_range
    (Width Height : Z) (input output : GameBoard) (indices : list Point) :
  ((length (data output) < length indices)%nat →
   iterate_board Width Height input output indices = None)
  ∧ (∀ vs,
       Forall2 (λ p v, rules Width Height input p = Some v) indices vs →
       (length indices ≤ length (data output))%nat →
       iterate_board Width Height input output indices
       = Some {| data := vs ++ drop (length vs) (data output) |}).
Proof.
  unfold iterate_board. split.
  - intros Hlen. change 0 with (Z.of_nat 0).
    rewrite transform_too_long by lia. done.
  - intros vs Hvs Hlen. change 0 with (Z.of_nat 0).
    rewrite (transform_stores _ _ vs Hvs) by lia. done.
Qed.

Lemma iterate_board_index_range_witness :
  iterate_board 2 2 sample_2x2 (new_board 2 2)
    (row_major 2 2 ++ [ {| x := 0; y := 0 |} ]) = None
  ∧ iterate_board 2 2 sample_2x2 sample_2x2 [ {| x := 1; y := 1 |} ]
    = Some {| data := [false] ++ drop 1 (data sample_2x2) |}.
Proof.
  destruct (iterate_board_index_range 2 2 sample_2x2 (new_board 2 2)
              (row_major 2 2 ++ [ {| x := 0; y := 0 |} ])) as [Hlong _].
  destruct (iterate_board_index_range 2 2 sample_2x2 sample_2x2
              [ {| x := 1; y := 1 |} ]) as [_ Hshort].
  split.
  - apply Hlong. vm_compute. lia.
  - apply (Hshort [false]); [| simpl; lia].
    repeat constructor.
Defined.

(** * The whole run *)

Lemma run_loop_add Width Height m n indices :
  ∀ b1 b2,
    run_loop Width Height (m + n) b1 b2 indices
    = run_loop Width Height m b1 b2 indices
        ≫= λ '(c1, c2), run_loop Width Height n c1 c2 indices.
Proof.
  induction m as [| m IH]; intros b1 b2; simpl; [done |].
  destruct (iterate_board Width Height b1 b2 indices) as [b2' |]; simpl;
    [apply IH | done].
Qed.

Section Run.
Context (Width Height : Z).
Hypothesis width_pos : 0 < Width.
Hypothesis height_pos : 0 < Height.
Hypothesis board_fits : Width * Height ≤ PTRDIFF_MAX.

Lemma iterate_board_defined input output :
  wf Width Height input → wf Width Height output →
  ∃ next,
    wf Width Height next
    ∧ ∀ other, wf Width Height other →
        iterate_board Width Height input other (row_major Width Height)
        = Some next.
Proof using width_pos height_pos board_fits.
  intros Hin Hout.
  destruct (rules_on_cache Width Height width_pos height_pos board_fits
              input Hin) as [vs Hvs].
  exists {| data := vs |}. split.
  - unfold wf. simpl. rewrite <- (Forall2_length _ _ _ Hvs).
    rewrite (length_cache Width Height width_pos height_pos board_fits
               input Hin). exact Hin.
  - intros other Hother. by apply iterate_board_stores.
Qed.

Lemma run_loop_defined n :
  ∀ b1 b2, wf Width Height b1 → wf Width Height b2 →
  ∃ c1 c2,
    run_loop Width Height n b1 b2 (row_major Width Height) = Some (c1, c2)
    ∧ wf Width Height c1 ∧ wf Width Height c2.
Proof using width_pos height_pos board_fits.
  induction n as [| n IH]; intros b1 b2 Hwf1 Hwf2; simpl.
  - by exists b1, b2.
  - destruct (iterate_board_defined b1 b2 Hwf1 Hwf2) as (next & Hnext & Hit).
    rewrite (Hit b2 Hwf2). simpl. by apply IH.
Qed.

(** The board returned does not depend on what the second buffer held. *)
Lemma run_loop_buffer n b1 b2 b2' :
  wf Width Height b1 → wf Width Height b2 → wf Width Height b2' →
  run_loop Width Height n b1 b2 (row_major Width Height)
    ≫= (λ '(c1, _), Some c1)
  = run_loop Width Height n b1 b2' (row_major Width Height)
      ≫= (λ '(c1, _), Some c1).
Proof using width_pos height_pos board_fits.
  intros Hwf1 Hwf2 Hwf2'. destruct n as [| n]; simpl; [done |].
  destruct (iterate_board_defined b1 b2 Hwf1 Hwf2) as (next & _ & Hit).
  by rewrite (Hit b2 Hwf2), (Hit b2' Hwf2').
Qed.
End Run.

(** X9: on a well-formed board of positive dimensions (of product at most
    [PTRDIFF_MAX]) the simulation returns a well-formed board for every
    iteration count: no step divides by zero, overflows a coordinate or
    leaves an array. *)
Theorem run_from_defined (Width Height : Z) (b : GameBoard) (n : nat) :
  0 < Width → 0 < Height → Width * Height ≤ PTRDIFF_MAX →
  wf Width Height b →
  ∃ final, run_from Width Height b n = Some final ∧ wf Width Height final.
Proof.
  intros HW HH Hfit Hwf. unfold run_from.
  rewrite make_indexes_cache by done. simpl.
  destruct (run_loop_defined Width Height HW HH Hfit n b
              (new_board Width Height) Hwf (wf_new_board Width Height))
    as (c1 & c2 & -> & Hc1 & _).
  by exists c1.
Qed.

Lemma run_from_defined_witness :
  ∃ final, run_from 2 2 sample_2x2 7 = Some final ∧ wf 2 2 final.
Proof. apply (run_from_defined 2 2 sample_2x2 7); bound. Defined.

(** X10: runs compose: [m + n] iterations give the board that [n]
    iterations give from the result of [m] iterations; the second buffer,
    which then holds an older generation, has no influence. *)
Theorem run_from_add (Width Height : Z) (b : GameBoard) (m n : nat) :
  0 < Width → 0 < Height → Width * Height ≤ PTRDIFF_MAX →
  wf Width Height b →
  run_from Width Height b (m + n)
  = run_from Width Height b m ≫= λ b', run_from Width Height b' n.
Proof.
  intros HW HH Hfit Hwf. unfold run_from.
  rewrite make_indexes_cache by done. simpl.
  rewrite run_loop_add.
  destruct (run_loop_defined Width Height HW HH Hfit m b
              (new_board Width Height) Hwf (wf_new_board Width Height))
    as (c1 & c2 & -> & Hc1 & Hc2).
  simpl.
  by apply run_loop_buffer; try apply wf_new_board.
Qed.

Lemma run_from_add_witness :
  run_from 2 2 sample_2x2 (2 + 3)
  = run_from 2 2 sample_2x2 2 ≫= λ b', run_from 2 2 b' 3.
Proof. apply (run_from_add 2 2 sample_2x2 2 3); bound. Defined.

(** X11: with a zero width or height every operation that maps a
    coordinate to a slot is undefined, the wrap dividing by zero: reading
    and setting a cell, counting neighbors, seeding a glider, and so the
    whole of [run_board]. *)
Theorem zero_dimension_undefined (Width Height : Z) :
  Width = 0 ∨ Height = 0 →
  (∀ b p,
     get Width Height b p = None
     ∧ set Width Height b p = None
     ∧ count_neighbors Width Height b p = None
     ∧ add_glider Width Height b p = None)
  ∧ (∀ n, run_board Width Height n = None).
Proof.
  intros Hzero.
  assert (Hget : ∀ b p, get Width Height b p = None).
  { intros b p. unfold get. by rewrite index_zero_dimension. }
  assert (Hset : ∀ b p, set Width Height b p = None).
  { intros b p. unfold set. by rewrite index_zero_dimension. }
  split.
  - intros b p. repeat split; try done.
    + unfold count_neighbors, neighbors. cbn [count_from].
      destruct (Point_add p {| x := -1; y := 0 |}) as [q |]; [| done].
      cbn [mbind option_bind]. by rewrite Hget.
    + unfold add_glider. by rewrite Hset.
  - intros n. unfold run_board, add_glider. by rewrite Hset.
Qed.

Lemma zero_dimension_undefined_witness :
  (∀ b p,
     get 0 5 b p = None
     ∧ set 0 5 b p = None
     ∧ count_neighbors 0 5 b p = None
     ∧ add_glider 0 5 b p = None)
  ∧ (∀ n, run_board 0 5 n = None).
Proof. apply (zero_dimension_undefined 0 5). by left. Defined.

(** * Overpopulation *)

Lemma get_full_board Width Height b p :
  0 < Width → 0 < Height → Width * Height ≤ SIZE_MAX →
  wf Width Height b → Forall (λ cell, cell = true) (data b) →
  get Width Height b p = Some true.
Proof.
  intros HW HH Hfit Hwf Hfull.
  destruct (get_defined Width Height HW HH Hfit b p Hwf)
    as (i & Ei & _ & v & Hv).
  rewrite Hv. f_equal. unfold get, array_get in Hv. rewrite Ei in Hv.
  simpl in Hv. by apply (Forall_lookup_1 _ _ _ _ Hfull Hv).
Qed.

Lemma rules_full_board Width Height b p :
  0 < Width → 0 < Height → Width * Height ≤ SIZE_MAX →
  wf Width Height b → Forall (λ cell, cell = true) (data b) →
  interior p →
  rules Width Height b p = Some false.
Proof.
  intros HW HH Hfit Hwf Hfull Hp. unfold rules, count_neighbors.
  rewrite count_from_cells by bound.
  unfold neighbors. simpl.
  repeat (rewrite Point_add_unit by (done || (split; simpl; lia)); simpl;
          rewrite get_full_board by done; simpl).
  by rewrite get_full_board by done.
Qed.

(** X12: on a board of positive dimensions (of product at most
    [PTRDIFF_MAX]) whose cells are all alive, every point with room for its
    eight neighbors counts eight of them alive, and the board is all-dead
    after one step and after any larger number of steps. *)
Theorem full_board_dies (Width Height : Z) (b : GameBoard) (n : nat) :
  0 < Width → 0 < Height → Width * Height ≤ PTRDIFF_MAX →
  wf Width Height b → Forall (λ cell, cell = true) (data b) →
  (∀ p, interior p → count_neighbors Width Height b p = Some 8)
  ∧ run_from Width Height b (S n) = Some (new_board Width Height).
Proof.
  intros HW HH Hfit Hwf Hfull.
  pose proof (extent_fits_size Width Height Hfit) as Hsize.
  split.
  - intros p Hp.
    unfold count_neighbors. rewrite count_from_cells by bound.
    unfold neighbors. simpl.
    repeat (rewrite Point_add_unit by (done || (split; simpl; lia)); simpl;
            rewrite get_full_board by done; simpl).
    done.
  - unfold run_from. rewrite make_indexes_cache by done. simpl.
    rewrite (iterate_board_stores Width Height HW HH Hfit b _
               (replicate (length (row_major Width Height)) false)).
    + simpl.
      replace {| data := replicate (length (row_major Width Height)) false |}
        with (new_board Width Height).
      * destruct (run_loop_new_board Width Height HW HH Hfit n b Hwf)
          as [board2' ->]. done.
      * unfold new_board. do 2 f_equal.
        rewrite length_row_major by lia. by rewrite extent_eq by lia.
    + apply wf_new_board.
    + apply Forall2_replicate_r; [done |].
      eapply Forall_impl;
        [apply (cache_interior Width Height HW HH Hfit) |].
      intros p Hp. simpl. by apply rules_full_board.
Qed.

Lemma full_board_dies_witness :
  (∀ p, interior p →
        count_neighbors 3 3 {| data := replicate 9 true |} p = Some 8)
  ∧ run_from 3 3 {| data := replicate 9 true |} (S 2) = Some (new_board 3 3).
Proof.
  apply (full_board_dies 3 3 {| data := replicate 9 true |} 2); try bound.
  by apply Forall_replicate.
Defined.

(** X13: [run_board] is defined for every positive width and height (of
    product at most [PTRDIFF_MAX]) and every iteration count: the two
    gliders are seeded, the run returns a board, and the answer is the cell
    read at the origin of that board. *)
Theorem run_board_defined (Width Height : Z) (n : nat) :
  0 < Width → 0 < Height → Width * Height ≤ PTRDIFF_MAX →
  ∃ seeded final answer,
    add_glider Width Height (new_board Width Height) {| x := 1; y := 3 |}
      ≫= (λ b, add_glider Width Height b {| x := 10; y := 1 |})
    = Some seeded
    ∧ run_from Width Height seeded n = Some final
    ∧ get Width Height final {| x := 0; y := 0 |} = Some answer
    ∧ run_board Width Height n = Some answer.
Proof.
  intros HW HH Hfit.
  pose proof (extent_fits_size Width Height Hfit) as Hsize.
  destruct (add_glider_defined Width Height (new_board Width Height)
              {| x := 1; y := 3 |} HW HH Hsize (wf_new_board Width Height))
    as (b1 & Hb1 & Hwf1); [bound |].
  destruct (add_glider_defined Width Height b1 {| x := 10; y := 1 |}
              HW HH Hsize Hwf1) as (b2 & Hb2 & Hwf2); [bound |].
  destruct (run_loop_defined Width Height HW HH Hfit n b2
              (new_board Width Height) Hwf2 (wf_new_board Width Height))
    as (final & c2 & Hloop & Hwff & _).
  assert (Hfinal : run_from Width Height b2 n = Some final).
  { unfold run_from. rewrite make_indexes_cache by done. simpl.
    by rewrite Hloop. }
  destruct (get_defined Width Height HW HH Hsize final {| x := 0; y := 0 |}
              Hwff) as (i & _ & _ & answer & Hanswer).
  exists b2, final, answer. unfold run_board.
  rewrite Hb1. simpl. rewrite Hb2. simpl. rewrite Hfinal. simpl. done.
Qed.

Lemma run_board_defined_witness :
  ∃ seeded final answer,
    add_glider 20 20 (new_board 20 20) {| x := 1; y := 3 |}
      ≫= (λ b, add_glider 20 20 b {| x := 10; y := 1 |})
    = Some seeded
    ∧ run_from 20 20 seeded 2 = Some final
    ∧ get 20 20 final {| x := 0; y := 0 |} = Some answer
    ∧ run_board 20 20 2 = Some answer.
Proof. apply (run_board_defined 20 20 2); bound. Defined.

(** * min_int *)

(** X14: [min_int] picks the narrowest of the four signed types that holds
    the value; for a value above the [std::int64_t] maximum it answers
    [std::int64_t], which does not hold it. *)
Theorem min_int_narrowest (value : Z) :
  (value ≤ INT64_MAX →
   value ≤ int_max (min_int value)
   ∧ ∀ t, value ≤ int_max t → int_max (min_int value) ≤ int_max t)
  ∧ (INT64_MAX < value →
     min_int value = Int64 ∧ int_max (min_int value) < value).
Proof.
  unfold min_int, INT64_MAX.
  destruct (Z.leb_spec value (int_max Int8)) as [H8 | H8];
    [| destruct (Z.leb_spec value (int_max Int16)) as [H16 | H16];
       [| destruct (Z.leb_spec value (int_max Int32)) as [H32 | H32]]];
    simpl in *; (split; [intros Hmax; split; [lia |] | intros Hmax]);
    try (intros [] Ht; simpl in *; lia); try lia.
  split; [done | simpl; lia].
Qed.

(** * checksum *)

Lemma to_unsigned_range v :
  0 ≤ Embed.to_unsigned v ≤ UINT_MAX.
Proof.
  unfold Embed.to_unsigned, UINT_MAX.
  pose proof (Z.mod_pos_bound v (2 ^ 32) ltac:(reflexivity)). lia.
Qed.

Lemma checksum_from_prefix a b :
  Forall (λ c, c ≠ 0) a →
  ∀ result,
    Embed.checksum_from (a ++ 0 :: b) (Embed.to_unsigned result)
    = Some (Embed.to_unsigned (result + Embed.char_sum a)).
Proof.
  induction 1 as [| c a Hc _ IH]; intros result; simpl.
  - by rewrite Z.add_0_r.
  - destruct (Z.eqb_spec c 0) as [| _]; [done |].
    unfold Embed.to_unsigned at 1 2.
    rewrite Z.add_mod_idemp_l by done.
    fold (Embed.to_unsigned (result + c)). rewrite IH.
    do 2 f_equal. lia.
Qed.

Lemma checksum_from_unterminated s :
  Forall (λ c, c ≠ 0) s → ∀ result, Embed.checksum_from s result = None.
Proof.
  induction 1 as [| c s Hc _ IH]; intros result; simpl; [done |].
  destruct (Z.eqb_spec c 0) as [| _]; [done | apply IH].
Qed.

Lemma char_sum_permutation a a' :
  a ≡ₚ a' → Embed.char_sum a = Embed.char_sum a'.
Proof.
  unfold Embed.char_sum.
  induction 1 as [| c a a' _ IH | c1 c2 a | a1 a2 a3 _ IH1 _ IH2]; simpl;
    lia.
Qed.

(** X15: [checksum] adds up, modulo [2^32], the characters before the first
    NUL and ignores whatever follows it. *)
Theorem checksum_sums_prefix (a b : list Z) :
  Forall (λ c, c ≠ 0) a →
  Embed.checksum (a ++ 0 :: b)
  = Some (Embed.to_unsigned (Embed.char_sum a))
  ∧ 0 ≤ Embed.to_unsigned (Embed.char_sum a) ≤ UINT_MAX.
Proof.
  intros Ha. split; [| apply to_unsigned_range].
  unfold Embed.checksum.
  change 0 with (Embed.to_unsigned 0) at 2.
  by rewrite checksum_from_prefix.
Qed.

Lemma checksum_sums_prefix_witness :
  Embed.checksum ([104; -61; 105] ++ 0 :: [7; 7])
  = Some (Embed.to_unsigned (Embed.char_sum [104; -61; 105]))
  ∧ 0 ≤ Embed.to_unsigned (Embed.char_sum [104; -61; 105])
      ≤ UINT_MAX.
Proof.
  apply (checksum_sums_prefix [104; -61; 105] [7; 7]).
  repeat constructor; discriminate.
Defined.

(** X16: the checksum does not see the order of the characters: two strings
    whose characters before the terminator are permutations of one another
    have the same checksum. *)
Theorem checksum_permutation (a a' b b' : list Z) :
  a ≡ₚ a' → Forall (λ c, c ≠ 0) a →
  Embed.checksum (a ++ 0 :: b) = Embed.checksum (a' ++ 0 :: b').
Proof.
  intros Hperm Ha.
  assert (Ha' : Forall (λ c, c ≠ 0) a') by (by rewrite <- Hperm).
  unfold Embed.checksum.
  change 0 with (Embed.to_unsigned 0) at 2 4.
  rewrite !checksum_from_prefix by done.
  by rewrite (char_sum_permutation a a').
Qed.

Lemma checksum_permutation_witness :
  Embed.checksum ([97; 98; 99] ++ 0 :: [])
  = Embed.checksum ([99; 97; 98] ++ 0 :: [1]).
Proof.
  apply (checksum_permutation [97; 98; 99] [99; 97; 98] [] [1]).
  - change [99; 97; 98] with ([99] ++ [97; 98]).
    change [97; 98; 99] with ([97; 98] ++ [99]).
    apply Permutation_app_comm.
  - repeat constructor; discriminate.
Defined.

Lemma checksum_from_defined_iff (s : list Z) :
  ∀ result, is_Some (Embed.checksum_from s result) ↔ 0 ∈ s.
Proof.
  induction s as [| c s IH]; intros result; simpl.
  - split; [by intros [? ?] | by intros ?%elem_of_nil].
  - rewrite elem_of_cons. destruct (Z.eqb_spec c 0) as [-> | Hne].
    + split; [by left | by eexists].
    + rewrite IH. split; [by right | by intros [? | ?]].
Qed.

(** X17: [checksum] is defined exactly on the arrays that hold a NUL; on an
    array without one the loop runs off its end. *)
Theorem checksum_defined_iff (s : list Z) :
  (is_Some (Embed.checksum s) ↔ 0 ∈ s)
  ∧ (0 ∉ s → Embed.checksum s = None).
Proof.
  split; [apply checksum_from_defined_iff |].
  intros Hnul. apply eq_None_not_Some.
  by rewrite (checksum_from_defined_iff s 0).
Qed.

(** X18: the checksum [C] of a non-empty embedded resource is always
    defined, the suffix of [#embed] supplying the terminator; for a resource
    without a NUL it is the sum of all its characters modulo [2^32]. *)
Theorem C_defined (resource : list Z) :
  resource ≠ [] →
  ∃ v,
    Embed.C resource = Some v
    ∧ 0 ≤ v ≤ UINT_MAX
    ∧ (0 ∉ resource → v = Embed.to_unsigned (Embed.char_sum resource)).
Proof.
  intros _. unfold Embed.C, Embed.str.
  destruct (proj2 (checksum_from_defined_iff (resource ++ [0]) 0))
    as [v Hv];
    [apply elem_of_app; right; by apply list_elem_of_singleton |].
  exists v. split; [done |]. split.
  - revert Hv. unfold Embed.checksum.
    change 0 with (Embed.to_unsigned 0) at 2.
    generalize 0 at 2 as result.
    induction resource as [| c resource IH]; intros result; simpl.
    + intros [= <-]. apply to_unsigned_range.
    + destruct (c =? 0); [intros [= <-]; apply to_unsigned_range |].
      unfold Embed.to_unsigned at 1 2.
      rewrite Z.add_mod_idemp_l by done. apply IH.
  - intros Hnul.
    assert (Hall : Forall (λ c, c ≠ 0) resource).
    { apply Forall_forall. intros c Hc ->. by apply Hnul. }
    unfold Embed.checksum in Hv.
    change 0 with (Embed.to_unsigned 0) in Hv at 2.
    rewrite checksum_from_prefix in Hv by done.
    by injection Hv as <-.
Qed.

Lemma C_defined_witness :
  ∃ v,
    Embed.C [47; 42; -30; 10] = Some v
    ∧ 0 ≤ v ≤ UINT_MAX
    ∧ (0 ∉ [47; 42; -30; 10]
       → v = Embed.to_unsigned (Embed.char_sum [47; 42; -30; 10])).
Proof. apply (C_defined [47; 42; -30; 10]). discriminate. Defined.

(** * test *)

Lemma builtin_memcpy_whole (A B : list Z) (n : Z) :
  0 ≤ n → length A = Z.to_nat n → length B = Z.to_nat n →
  BuiltinMemcpy.builtin_memcpy B A n = Some A.
Proof.
  intros Hn HA HB. unfold BuiltinMemcpy.builtin_memcpy.
  rewrite HA, HB, Z2Nat.id by done.
  rewrite Z.leb_refl. simpl.
  rewrite take_ge, drop_ge by lia. by rewrite app_nil_r.
Qed.

Lemma copy_loop_whole (A : list Z) (n : Z) rounds :
  0 ≤ n → length A = Z.to_nat n →
  ∀ B, length B = Z.to_nat n →
    BuiltinMemcpy.copy_loop rounds n A B
    = Some (match rounds with O => B | S _ => A end).
Proof.
  intros Hn HA. induction rounds as [| rounds IH]; intros B HB; simpl.
  - done.
  - rewrite builtin_memcpy_whole by done. simpl.
    rewrite IH by done. by destruct rounds.
Qed.

(** X19: for a positive [TUNING] that an [unsigned] reaches, [test] returns
    1 and leaves in [B] the zeros of [A], whatever the uninitialised [B]
    held: every round copies the whole array and no round reads [B]. *)
Theorem test_copies (TUNING : Z) (B0 : list Z) :
  0 < TUNING ≤ UINT_MAX → length B0 = Z.to_nat TUNING →
  BuiltinMemcpy.test TUNING B0 = Some (replicate (Z.to_nat TUNING) 0, 1).
Proof.
  intros [Hpos Hmax] HB. unfold BuiltinMemcpy.test.
  rewrite copy_loop_whole by (done || lia || by rewrite length_replicate).
  simpl. destruct (Z.to_nat TUNING) eqn:Hn; [lia | done].
Qed.

Lemma test_copies_witness :
  BuiltinMemcpy.test 3 [5; -1; 9] = Some (replicate (Z.to_nat 3) 0, 1).
Proof. apply (test_copies 3 [5; -1; 9]); bound. Defined.

(** * The seam and the two buffers *)

(** X20: a negative coordinate is wrapped with a shift: the code returns the
    floor-modulo of the coordinate moved by [2^64 mod m], which is the
    toroidal wrap only when that shift is zero. *)
Theorem floor_modulo_negative (k m : Z) :
  INT64_MIN ≤ k < 0 → 0 < m ≤ 2 ^ 63 →
  floor_modulo k m = Some (floor_mod (floor_mod k m + 2 ^ 64 mod m) m).
Proof.
  unfold INT64_MIN. intros Hk Hm.
  assert (H63 : 2 ^ 63 = 9223372036854775808) by reflexivity.
  rewrite floor_modulo_unsigned by done. f_equal.
  unfold floor_mod, to_size_t.
  rewrite <- Z.add_mod by lia. f_equal.
  symmetry. apply (Z.mod_unique_pos _ _ (-1)); rewrite ?two_64; lia.
Qed.

Lemma floor_modulo_negative_witness :
  floor_modulo (-1) 20
  = Some (floor_mod (floor_mod (-1) 20 + 2 ^ 64 mod 20) 20).
Proof. apply (floor_modulo_negative (-1) 20); bound. Defined.

(** X21: after the loop the two buffers hold the last two generations: the
    board returned is that of [n + 1] iterations and the other buffer is
    the board of [n] iterations. *)
Theorem run_loop_buffers (Width Height : Z) (b : GameBoard) (n : nat) :
  0 < Width → 0 < Height → Width * Height ≤ PTRDIFF_MAX →
  wf Width Height b →
  ∃ cache board1 board2,
    make_indexes Width Height = Some cache
    ∧ run_loop Width Height (S n) b (new_board Width Height) cache
      = Some (board1, board2)
    ∧ run_from Width Height b (S n) = Some board1
    ∧ run_from Width Height b n = Some board2.
Proof.
  intros HW HH Hfit Hwf.
  destruct (run_loop_defined Width Height HW HH Hfit n b
              (new_board Width Height) Hwf (wf_new_board Width Height))
    as (d1 & d2 & Hn & Hd1 & Hd2).
  destruct (iterate_board_defined Width Height HW HH Hfit d1 d2 Hd1 Hd2)
    as (next & _ & Hnext).
  assert (Hloop : run_loop Width Height (S n) b (new_board Width Height)
                    (row_major Width Height) = Some (next, d1)).
  { replace (S n) with (n + 1)%nat by lia.
    rewrite run_loop_add, Hn. simpl. by rewrite (Hnext d2 Hd2). }
  exists (row_major Width Height), next, d1.
  split; [by apply make_indexes_cache |]. split; [exact Hloop |].
  unfold run_from. rewrite make_indexes_cache by done.
  cbn [mbind option_bind]. by rewrite Hloop, Hn.
Qed.

Lemma run_loop_buffers_witness :
  ∃ cache board1 board2,
    make_indexes 2 2 = Some cache
    ∧ run_loop 2 2 (S 3) sample_2x2 (new_board 2 2) cache
      = Some (board1, board2)
    ∧ run_from 2 2 sample_2x2 (S 3) = Some board1
    ∧ run_from 2 2 sample_2x2 3 = Some board2.
Proof. apply (run_loop_buffers 2 2 sample_2x2 3); bound. Defined.
